(** * QTagEdit: the tag model, the tag renderer and the pen selection

    A shallow embedding of [src/src/qtagedit.cpp].  The widget is a
    [QLineEdit] whose text buffer is read as a space separated list of tags;
    every operation of the tag model goes through [text()] and [setText()].

    Modelling conventions.
    - A [QString] is a [string]; the operations used by the widget only
      compare code units with the space character or with the configured
      separator, so the width of a code unit plays no role.
    - The host line edit is the record field [text]; [setText] stores its
      argument unchanged (the host does not run the validator on [setText],
      and buffers stay below the host's maximum length).
    - C++ [int] values (pixel coordinates, indices) are [Z]; the code performs
      no arithmetic on them that could leave the range of [int] for on-screen
      geometry.
    - C++ [double] values are binary64 floats ([PrimFloat.float]), every
      operation rounded to nearest, evaluated in source order. *)

From Stdlib Require Import ZArith List String Ascii Bool Lia.
From Stdlib Require Import QArith Qabs Floats Uint63.
Import ListNotations.

Set Warnings "-inexact-float".

Local Open Scope string_scope.
Local Open Scope Z_scope.

(** ** The part of [QString] and [QStringList] the widget uses *)

Module QString.

(** [QString::isEmpty]. *)
Definition isEmpty (s : string) : bool :=
  match s with
  | EmptyString => true
  | String _ _ => false
  end.

(** [QString::contains(QChar)]. *)
Fixpoint contains (ch : ascii) (s : string) : bool :=
  match s with
  | EmptyString => false
  | String c rest => if Ascii.eqb c ch then true else contains ch rest
  end.

(** [QString::size]. *)
Definition size (s : string) : Z := Z.of_nat (String.length s).

(** [QString::indexOf(QChar)]: index of the first occurrence, or -1. *)
Fixpoint indexOf (ch : ascii) (s : string) : Z :=
  match s with
  | EmptyString => -1
  | String c rest =>
      if Ascii.eqb c ch then 0
      else let i := indexOf ch rest in
           if 0 <=? i then i + 1 else -1
  end.

(** [QString::lastIndexOf(QChar)]: index of the last occurrence, or -1. *)
Fixpoint lastIndexOf (ch : ascii) (s : string) : Z :=
  match s with
  | EmptyString => -1
  | String c rest =>
      let i := lastIndexOf ch rest in
      if 0 <=? i then i + 1
      else if Ascii.eqb c ch then 0 else -1
  end.

(** The first [n] code units of a string. *)
Fixpoint left (n : nat) (s : string) : string :=
  match n, s with
  | O, _ => EmptyString
  | S _, EmptyString => EmptyString
  | S k, String c rest => String c (left k rest)
  end.

(** [QString::truncate(pos)]: [if (pos < size()) resize(pos)]; a negative
    position resizes to the empty string. *)
Definition truncate (pos : Z) (s : string) : string :=
  if pos <? size s then left (Z.to_nat pos) s else s.

(** [QString::sliced(pos)]: the string from position [pos] on. *)
Fixpoint sliced (n : nat) (s : string) : string :=
  match n, s with
  | O, _ => s
  | S _, EmptyString => EmptyString
  | S k, String _ rest => sliced k rest
  end.

(** [Qt::SplitBehavior]. *)
Inductive SplitBehavior : Set := KeepEmptyParts | SkipEmptyParts.

(** The segments of [s] between the occurrences of [sep], empty ones
    included: a string with [n] separators has [n + 1] segments. *)
Fixpoint segments (sep : ascii) (s : string) : list string :=
  match s with
  | EmptyString => [EmptyString]
  | String c rest =>
      if Ascii.eqb c sep then EmptyString :: segments sep rest
      else match segments sep rest with
           | seg :: segs => String c seg :: segs
           | [] => [String c EmptyString]
           end
  end.

(** [QString::split(sep, behavior)] for a one code unit separator. *)
Definition split (sep : ascii) (behavior : SplitBehavior) (s : string)
  : list string :=
  match behavior with
  | KeepEmptyParts => segments sep s
  | SkipEmptyParts => filter (fun part => negb (isEmpty part)) (segments sep s)
  end.

End QString.

Module QStringList.

(** [QStringList::join(sep)]. *)
Fixpoint join (sep : string) (l : list string) : string :=
  match l with
  | [] => EmptyString
  | [x] => x
  | x :: rest => x ++ sep ++ join sep rest
  end.

(** [QList::mid(pos)]: the elements from position [pos] on. *)
Definition mid {A : Type} (pos : nat) (l : list A) : list A := skipn pos l.

End QStringList.

(** [std::unique] followed by [erase(last, end)]: an element is dropped when
    the predicate relates the last kept element to it. *)
Fixpoint unique_from {A : Type} (pred : A -> A -> bool) (kept : A)
  (rest : list A) : list A :=
  match rest with
  | [] => []
  | x :: xs =>
      if pred kept x then unique_from pred kept xs
      else x :: unique_from pred x xs
  end.

Definition std_unique {A : Type} (pred : A -> A -> bool) (l : list A)
  : list A :=
  match l with
  | [] => []
  | x :: xs => x :: unique_from pred x xs
  end.

(** ** The widget state *)

(** [QTagEdit::Property]. *)
Record Property : Set := mkProperty {
  name : string;
  values : list string
}.

(** [QColor], by its [red()], [green()], [blue()] and [alpha()]. *)
Record QColor : Set := mkColor {
  red : Z;
  green : Z;
  blue : Z;
  alpha : Z
}.

(** [QTagEdit::Style]. *)
Record Style : Set := mkStyle {
  line_color : QColor;
  shade_color : QColor;
  property_color : QColor
}.

(** The widget: the text of the underlying line edit, the fields of
    [QTagEdit::Impl] and the enabled flag of the host widget. *)
Record QTagEdit : Type := mkTagEdit {
  text : string;
  primary : Style;
  secondary : Style;
  separator : option ascii;
  tag_filter : option (string -> bool);
  unique_tags : bool;
  isEnabled : bool
}.

Definition kLineColor : QColor := mkColor 37 150 190 255.
Definition kShadeColor : QColor := mkColor 37 150 190 127.
Definition kPropertyColor : QColor := mkColor 37 150 190 90.
Definition kSecondaryLineColor : QColor := mkColor 190 155 37 255.
Definition kSecondaryShadeColor : QColor := mkColor 190 155 37 127.
Definition kSecondaryPropertyColor : QColor := mkColor 190 155 37 90.

(** The state after the constructor: an empty buffer and the defaults of
    [QTagEdit::Impl]. *)
Definition QTagEdit_new : QTagEdit :=
  {| text := "";
     primary := mkStyle kLineColor kShadeColor kPropertyColor;
     secondary := mkStyle kSecondaryLineColor kSecondaryShadeColor
                    kSecondaryPropertyColor;
     separator := None;
     tag_filter := None;
     unique_tags := true;
     isEnabled := true |}.

(** [QLineEdit::setText]. *)
Definition setText (s : string) (w : QTagEdit) : QTagEdit :=
  {| text := s;
     primary := primary w;
     secondary := secondary w;
     separator := separator w;
     tag_filter := tag_filter w;
     unique_tags := unique_tags w;
     isEnabled := isEnabled w |}.

Definition setPropertySeparator (sep : ascii) (w : QTagEdit) : QTagEdit :=
  {| text := text w;
     primary := primary w;
     secondary := secondary w;
     separator := Some sep;
     tag_filter := tag_filter w;
     unique_tags := unique_tags w;
     isEnabled := isEnabled w |}.

Definition setUniqueTags (unique : bool) (w : QTagEdit) : QTagEdit :=
  {| text := text w;
     primary := primary w;
     secondary := secondary w;
     separator := separator w;
     tag_filter := tag_filter w;
     unique_tags := unique;
     isEnabled := isEnabled w |}.

Definition setTagFilter (filter : string -> bool) (w : QTagEdit) : QTagEdit :=
  {| text := text w;
     primary := primary w;
     secondary := secondary w;
     separator := separator w;
     tag_filter := Some filter;
     unique_tags := unique_tags w;
     isEnabled := isEnabled w |}.

(** ** The tag model *)

Definition setTags (tags : list string) (w : QTagEdit) : QTagEdit :=
  setText (QStringList.join " " tags) w.

Definition getTags (w : QTagEdit) : list string :=
  QString.split " " QString.SkipEmptyParts (text w).

Definition addTag (tag : string) (w : QTagEdit) : QTagEdit :=
  if QString.isEmpty (text w) then setText tag w
  else setText (text w ++ " " ++ tag) w.

Definition removeLastTag (w : QTagEdit) : QTagEdit :=
  let index := QString.lastIndexOf " " (text w) in
  if 0 <=? index then setText (QString.truncate index (text w)) w
  else setText "" w.

(** The token built by the loops of [setProperties] and [addProperty]: the
    name, to which [*sep + value] is appended for each value; without a
    separator the values are not visited. *)
Definition property_tag (sep : option ascii) (property : Property) : string :=
  match sep with
  | Some c =>
      fold_left (fun tag value => tag ++ String c value) (values property)
        (name property)
  | None => name property
  end.

Definition setProperties (properties : list Property) (w : QTagEdit)
  : QTagEdit :=
  setTags (map (property_tag (separator w)) properties) w.

Definition addProperty (property : Property) (w : QTagEdit) : QTagEdit :=
  setText (text w ++ " " ++ property_tag (separator w) property) w.

Definition getProperties (w : QTagEdit) : list Property :=
  flat_map
    (fun tag =>
       match separator w with
       | Some sep =>
           let tokens := QString.split sep QString.KeepEmptyParts tag in
           if (1 <? Z.of_nat (List.length tokens)) then
             [ {| name := nth 0 tokens ""; values := QStringList.mid 1 tokens |} ]
           else
             [ {| name := nth 0 tokens ""; values := [] |} ]
       | None => []
       end)
    (getTags w).

Definition makeTagsUnique (w : QTagEdit) : QTagEdit :=
  if negb (unique_tags w) then w
  else
    match separator w with
    | Some _ =>
        setProperties
          (std_unique (fun a b => String.eqb (name a) (name b))
             (getProperties w)) w
    | None => setTags (std_unique String.eqb (getTags w)) w
    end.

(** [QTagEdit::Filter]: without a filter every tag passes. *)
Definition Filter (w : QTagEdit) (tag : string) : bool :=
  match tag_filter w with
  | Some f => f tag
  | None => true
  end.

(** ** Contrast / pen selection *)

(** [QPen], by its colour and width; [QPen(color)] has width 1. *)
Record QPen : Set := mkPen {
  pen_color : QColor;
  pen_width : Z
}.

Definition QPen_of_color (c : QColor) : QPen := mkPen c 1.

Definition QPen_setColor (c : QColor) (p : QPen) : QPen :=
  mkPen c (pen_width p).

(** The conversion of an [int] to [double] (exact for the values at hand). *)
Definition to_double (v : Z) : float :=
  if v <? 0 then PrimFloat.opp (PrimFloat.of_uint63 (Uint63.of_Z (- v)))
  else PrimFloat.of_uint63 (Uint63.of_Z v).

Definition kRgbBrightnessWeights : float * float * float :=
  (0.299, 0.587, 0.114)%float.
Definition kDarkColorTreshold : float := 150%float.
Definition kDarkColor : QColor := mkColor 0 0 0 255.
Definition kBrightColor : QColor := mkColor 245 245 245 255.

(** The lambda [scale_a] of [getPenForColor]. *)
Definition scale_a (color : QColor) (value : Z) : float :=
  (255 - to_double (alpha color) / 255 * (255 - to_double value))%float.

Definition weighted_color (color : QColor) : float :=
  let '(w0, w1, w2) := kRgbBrightnessWeights in
  (scale_a color (red color) * w0 +
   scale_a color (green color) * w1 +
   scale_a color (blue color) * w2)%float.

Definition getPenForColor (color : QColor) : QPen :=
  if PrimFloat.ltb kDarkColorTreshold (weighted_color color)
  then QPen_of_color kDarkColor
  else QPen_of_color kBrightColor.

(** The rational number a finite binary64 value stands for. *)
Definition Q_of_double (f : float) : Q :=
  match Prim2SF f with
  | S754_finite sign m e =>
      let mag := (inject_Z (Z.pos m) * Qpower 2 e)%Q in
      if sign then Qopp mag else mag
  | _ => 0%Q
  end.

(** [scale_a] read over the rationals, without rounding. *)
Definition scale_a_exact (a value : Z) : Q :=
  (255 - inject_Z a / 255 * (255 - inject_Z value))%Q.

(** The wording of the specification: the channel moved toward white (255)
    by the fraction [(255 - alpha) / 255] of its distance to white. *)
Definition blend_toward_white (a value : Z) : Q :=
  (inject_Z value + (255 - inject_Z a) / 255 * (255 - inject_Z value))%Q.

Definition channel (v : Z) : Prop := 0 <= v <= 255.

Definition rgba (c : QColor) : Prop :=
  channel (red c) /\ channel (green c) /\ channel (blue c) /\ channel (alpha c).

Definition with_alpha (a : Z) (c : QColor) : QColor :=
  mkColor (red c) (green c) (blue c) a.

(** ** The tag renderer *)

Record QPoint : Set := mkPoint { px : Z; py : Z }.

Record QMargins : Set := mkMargins {
  m_left : Z;
  m_top : Z;
  m_right : Z;
  m_bottom : Z
}.

(** [QRect] keeps its two corners, as Qt does. *)
Module QRect.

Record t : Set := mk { x1 : Z; y1 : Z; x2 : Z; y2 : Z }.

(** [QRect{left, top, width, height}]. *)
Definition make (aleft atop awidth aheight : Z) : t :=
  mk aleft atop (aleft + awidth - 1) (atop + aheight - 1).

Definition left (r : t) : Z := x1 r.
Definition height (r : t) : Z := y2 r - y1 r + 1.
Definition width (r : t) : Z := x2 r - x1 r + 1.

Definition moveLeft (pos : Z) (r : t) : t :=
  mk pos (y1 r) (x2 r + (pos - x1 r)) (y2 r).

Definition moveBottom (pos : Z) (r : t) : t :=
  mk (x1 r) (y1 r + (pos - y2 r)) (x2 r) pos.

(** [rect += margins]. *)
Definition marginsAdded (m : QMargins) (r : t) : t :=
  mk (x1 r - m_left m) (y1 r - m_top m) (x2 r + m_right m)
     (y2 r + m_bottom m).

Definition bottomLeft (r : t) : QPoint := mkPoint (x1 r) (y2 r).
Definition bottomRight (r : t) : QPoint := mkPoint (x2 r) (y2 r).

End QRect.

(** The text measurement service of the host: [fontMetrics()]. *)
Record QFontMetrics : Type := mkFontMetrics {
  horizontalAdvance : string -> Z;
  fontHeight : Z
}.

(** What the renderer asks of the painter. *)
Inductive PaintCommand : Set :=
| SetPen (pen : QPen)
| DrawText (rect : QRect.t) (txt : string)
| FillPath (rect : QRect.t) (brush : QColor)
| DrawLine (p1 p2 : QPoint).

Definition kLeftMargin : Z := 0.
Definition kTopMargin : Z := 0.
Definition kRightMargin : Z := 0.
Definition kBottomMargin : Z := 2.
Definition kTagMargins : QMargins :=
  mkMargins kLeftMargin kTopMargin kRightMargin kBottomMargin.
Definition kTagMarginsWithProperty : QMargins :=
  mkMargins kLeftMargin kTopMargin 0 kBottomMargin.
Definition kPropertyMargins : QMargins :=
  mkMargins 0 kTopMargin kRightMargin kBottomMargin.
Definition kLineWidth : Z := 2.

(** [QColor("gray")] and [QColor("lightgray")]. *)
Definition gray : QColor := mkColor 128 128 128 255.
Definition lightgray : QColor := mkColor 211 211 211 255.

Section Rendering.

Variable w : QTagEdit.
Variable fm : QFontMetrics.

(** The loop of [renderTags], with the rectangle it moves along. *)
Fixpoint renderTags_loop (tags : list string) (rect : QRect.t)
  : list PaintCommand :=
  match tags with
  | [] => []
  | tag :: rest =>
      let pen :=
        if Filter w tag then getPenForColor (property_color (primary w))
        else getPenForColor (property_color (secondary w)) in
      let pen := if negb (isEnabled w) then QPen_setColor gray pen else pen in
      SetPen pen :: DrawText rect tag ::
      renderTags_loop rest
        (QRect.moveLeft
           (QRect.left rect + horizontalAdvance fm (tag ++ " ")) rect)
  end.

Definition renderTags (rect : QRect.t) : list PaintCommand :=
  renderTags_loop (getTags w) rect.

(** The lambda [text_rect] of [renderTagBackgrounds]. *)
Definition text_rect (text_y : Z) (str : string) (offset : Z)
  (margin : QMargins) : QRect.t :=
  let rect := QRect.make 0 0 (horizontalAdvance fm str) (fontHeight fm) in
  let rect := QRect.moveBottom text_y rect in
  let rect := QRect.moveLeft offset rect in
  QRect.marginsAdded margin rect.

(** The loop of [renderTagBackgrounds]. *)
Fixpoint renderTagBackgrounds_loop (text_y : Z) (line_only : bool)
  (tags : list string) (rect : QRect.t) : list PaintCommand :=
  match tags with
  | [] => []
  | tag :: rest =>
      let style0 := if Filter w tag then primary w else secondary w in
      let '(tag_only, property_only, style) :=
        match separator w with
        | Some sep =>
            let first_sep := QString.indexOf sep tag in
            if 0 <=? first_sep then
              let tag_only := QString.truncate first_sep tag in
              (tag_only,
               QString.sliced (Z.to_nat first_sep) tag,
               if Filter w tag_only then primary w else secondary w)
            else (tag, "", style0)
        | None => (tag, "", style0)
        end in
      let shading :=
        if negb line_only && isEnabled w then
          let has_property := negb (QString.isEmpty property_only) in
          let margin :=
            if has_property then kTagMarginsWithProperty else kTagMargins in
          FillPath (text_rect text_y tag (QRect.left rect) margin)
            (shade_color style) ::
          (if has_property then
             let offset :=
               QRect.left rect + horizontalAdvance fm tag_only in
             [FillPath (text_rect text_y property_only offset kPropertyMargins)
                (property_color style)]
           else [])
        else [] in
      let line_rect := text_rect text_y tag (QRect.left rect) kTagMargins in
      let pen :=
        if isEnabled w then mkPen (line_color style) kLineWidth
        else mkPen lightgray kLineWidth in
      (shading ++
       [SetPen pen;
        DrawLine (QRect.bottomLeft line_rect) (QRect.bottomRight line_rect)])%list
      ++ renderTagBackgrounds_loop text_y line_only rest
           (QRect.moveLeft
              (QRect.left rect + horizontalAdvance fm (tag ++ " ")) rect)
  end%list.

(** [text_y]: both halves are exact in binary64 and the cast to [int]
    truncates toward zero. *)
Definition renderTagBackgrounds (rect : QRect.t) (line_only : bool)
  : list PaintCommand :=
  let text_y := Z.quot (QRect.height rect + fontHeight fm) 2 in
  renderTagBackgrounds_loop text_y line_only (getTags w) rect.

End Rendering.

(** The horizontal offsets at which a pass draws the tags: the left edge of
    each text rectangle in [renderTags], the start of each underline in
    [renderTagBackgrounds]. *)
Definition text_offsets (cmds : list PaintCommand) : list Z :=
  flat_map (fun c => match c with
                     | DrawText rect _ => [QRect.left rect]
                     | _ => []
                     end) cmds.

Definition line_offsets (cmds : list PaintCommand) : list Z :=
  flat_map (fun c => match c with
                     | DrawLine p1 _ => [px p1]
                     | _ => []
                     end) cmds.

(** ** The notions the specification is worded with *)

(** The segment of a tag before its first separator (the whole tag when it
    has none). *)
Fixpoint before_first (sep : ascii) (s : string) : string :=
  match s with
  | EmptyString => EmptyString
  | String c rest =>
      if Ascii.eqb c sep then EmptyString
      else String c (before_first sep rest)
  end.

(** What follows the first separator of a tag, if it has one. *)
Fixpoint after_first (sep : ascii) (s : string) : option string :=
  match s with
  | EmptyString => None
  | String c rest => if Ascii.eqb c sep then Some rest else after_first sep rest
  end.

(** The separator delimited segments after the first separator, in order;
    none when the tag has no separator. *)
Definition remaining_segments (sep : ascii) (tag : string) : list string :=
  match after_first sep tag with
  | Some rest => QString.segments sep rest
  | None => []
  end.

(** The property a tag stands for. *)
Definition property_of_tag (sep : ascii) (tag : string) : Property :=
  {| name := before_first sep tag; values := remaining_segments sep tag |}.

(** All strings of a list, one after the other. *)
Fixpoint concat_all (l : list string) : string :=
  match l with
  | [] => EmptyString
  | x :: rest => x ++ concat_all rest
  end.

(** The token of a property: the name, followed by the separator and the
    value for each value in order. *)
Definition token_of_property (sep : ascii) (p : Property) : string :=
  name p ++ concat_all (map (String sep) (values p)).

(** What two entries are compared by when duplicates are collapsed. *)
Definition tag_key (sep : option ascii) (tag : string) : string :=
  match sep with
  | Some c => before_first c tag
  | None => tag
  end.

(** Equality of two entries under a key. *)
Definition key_eq {A : Type} (key : A -> string) (a b : A) : bool :=
  String.eqb (key a) (key b).

Definition same_key (sep : option ascii) : string -> string -> bool :=
  key_eq (tag_key sep).

(** Collapsing runs: an entry stays exactly when it is the first one or
    differs from the entry right before it. *)
Fixpoint collapse_runs {A : Type} (same : A -> A -> bool) (prev : option A)
  (l : list A) : list A :=
  match l with
  | [] => []
  | x :: rest =>
      let tail := collapse_runs same (Some x) rest in
      match prev with
      | Some p => if same p x then tail else x :: tail
      | None => x :: tail
      end
  end.

(** A tag as the tag model produces it: not empty and without a space. *)
Definition plain_tag (tag : string) : Prop :=
  tag <> "" /\ QString.contains " " tag = false.

(** Strings by the position of the characters of a class [p]. *)
Definition starts_with (p : ascii -> bool) (s : string) : bool :=
  match s with
  | EmptyString => false
  | String c _ => p c
  end.

Fixpoint ends_with (p : ascii -> bool) (s : string) : bool :=
  match s with
  | EmptyString => false
  | String c rest =>
      match rest with
      | EmptyString => p c
      | String _ _ => ends_with p rest
      end
  end.

Fixpoint has_doubled (p : ascii -> bool) (s : string) : bool :=
  match s with
  | EmptyString => false
  | String c rest => (p c && starts_with p rest) || has_doubled p rest
  end.

(** No leading, trailing or doubled character of the class [p]. *)
Definition well_spaced (p : ascii -> bool) (s : string) : bool :=
  negb (starts_with p s) && negb (ends_with p s) && negb (has_doubled p s).

(** The class made of one character. *)
Definition is_char (sep c : ascii) : bool := Ascii.eqb c sep.

Definition is_blank : ascii -> bool := is_char " ".

(** Whitespace as the validator's [\s] reads it on this character set:
    tab, line feed, vertical tab, form feed, carriage return, space. *)
Definition isSpace (c : ascii) : bool :=
  let n := N_of_ascii c in
  ((9 <=? n) && (n <=? 13) || (n =? 32))%N.

(** The invariant of the buffer: its tokens are separated by exactly one
    space, and it has no leading, trailing or doubled whitespace. *)
Definition buffer_invariant (s : string) : bool :=
  String.eqb (QStringList.join " " (QString.split " " QString.SkipEmptyParts s)) s
  && well_spaced isSpace s.

(** An argument string of a mutation: not empty and without whitespace. *)
Fixpoint has_space (s : string) : bool :=
  match s with
  | EmptyString => false
  | String c rest => isSpace c || has_space rest
  end.

Definition clean_word (s : string) : Prop := s <> "" /\ has_space s = false.

Definition clean_property (p : Property) : Prop :=
  clean_word (name p) /\ Forall clean_word (values p).

(** A text measurement that rounds 7.5 pixels per character to the nearest
    pixel, halves up. *)
Definition rounding_metrics : QFontMetrics :=
  {| horizontalAdvance := fun s => (15 * QString.size s + 1) / 2;
     fontHeight := 16 |}.

(** The integers [lo], [lo + 1], ..., [lo + n - 1]. *)
Definition int_range (lo n : nat) : list Z := map Z.of_nat (seq lo n).

(** A check of every combination of three channel values of a range. *)
Definition forall_rgb (lo n : nat) (check : Z -> Z -> Z -> bool) : bool :=
  forallb (fun r =>
    forallb (fun g =>
      forallb (fun b => check r g b) (int_range lo n)) (int_range lo n))
    (int_range lo n).

(** The rounding error allowed on a blended channel. *)
Definition blend_tolerance : Q := 1 # 1000000000000.

(** The blended channel computed in binary64 is the blend of the
    specification, up to [blend_tolerance]. *)
Definition blend_close (a value : Z) : bool :=
  Qle_bool
    (Qabs (Q_of_double (scale_a (mkColor 0 0 0 a) value)
           - blend_toward_white a value))
    blend_tolerance.

Definition selects_dark (c : QColor) : bool :=
  PrimFloat.ltb kDarkColorTreshold (weighted_color c).

(** The layout both passes follow: the first tag at [x], each next tag
    after the measured width of the tag before it with a space appended. *)
Fixpoint offsets_from (fm : QFontMetrics) (x : Z) (tags : list string)
  : list Z :=
  match tags with
  | [] => []
  | tag :: rest =>
      x :: offsets_from fm (x + horizontalAdvance fm (tag ++ " ")) rest
  end.

(** In a list of offsets, entry [i + 1] is entry [i] plus [step]. *)
Definition advances_by (offsets : list Z) (i : nat) (step : Z) : Prop :=
  exists x : Z,
    nth_error offsets i = Some x /\ nth_error offsets (S i) = Some (x + step).

(** A non-empty string without leading, trailing or doubled whitespace. *)
Definition tight (s : string) : Prop :=
  s <> "" /\ well_spaced isSpace s = true.

(** The public operations of the widget that the tag model is driven by:
    the six mutations of the buffer and the setters of the configuration. *)
Inductive Operation : Type :=
| OpSetTags (tags : list string)
| OpAddTag (tag : string)
| OpRemoveLastTag
| OpSetProperties (properties : list Property)
| OpAddProperty (property : Property)
| OpMakeTagsUnique
| OpSetPropertySeparator (sep : ascii)
| OpSetUniqueTags (unique : bool)
| OpSetTagFilter (filter : string -> bool).

Definition run (op : Operation) (w : QTagEdit) : QTagEdit :=
  match op with
  | OpSetTags tags => setTags tags w
  | OpAddTag tag => addTag tag w
  | OpRemoveLastTag => removeLastTag w
  | OpSetProperties properties => setProperties properties w
  | OpAddProperty property => addProperty property w
  | OpMakeTagsUnique => makeTagsUnique w
  | OpSetPropertySeparator sep => setPropertySeparator sep w
  | OpSetUniqueTags unique => setUniqueTags unique w
  | OpSetTagFilter filter => setTagFilter filter w
  end.

(** The arguments of an operation are non-empty and free of whitespace. *)
Definition clean_operation (op : Operation) : Prop :=
  match op with
  | OpSetTags tags => Forall clean_word tags
  | OpAddTag tag => clean_word tag
  | OpSetProperties properties => Forall clean_property properties
  | OpAddProperty property => clean_property property
  | _ => True
  end.

(** The widgets reached from a new one by operations with clean arguments. *)
Inductive reachable : QTagEdit -> Prop :=
| reachable_new : reachable QTagEdit_new
| reachable_run (op : Operation) (w : QTagEdit) :
    reachable w -> clean_operation op -> reachable (run op w).

(** [addProperty] called on an empty buffer. *)
Definition addProperty_on_empty (op : Operation) (w : QTagEdit) : Prop :=
  match op with
  | OpAddProperty _ => text w = ""
  | _ => False
  end.

(** ** The rest of the widget: completion, painting, the example *)

(** [QString::back]: the last code unit of a non-empty string. *)
Fixpoint QString_back (s : string) : ascii :=
  match s with
  | EmptyString => Ascii.zero
  | String c rest =>
      match rest with
      | EmptyString => c
      | String _ _ => QString_back rest
      end
  end.

(** [QString::chop(n)]: drops [n] code units from the end, all of them when
    [n] is the size or more; a negative [n] drops nothing. *)
Definition QString_chop (n : Z) (s : string) : string :=
  if n <=? 0 then s else QString.left (Z.to_nat (QString.size s - n)) s.

Definition setSecondaryColors (line shade property : QColor) (w : QTagEdit)
  : QTagEdit :=
  {| text := text w;
     primary := primary w;
     secondary := mkStyle line shade property;
     separator := separator w;
     tag_filter := tag_filter w;
     unique_tags := unique_tags w;
     isEnabled := isEnabled w |}.

(** The slot that [setTagsForCompletion] connects to the completer's
    [activated] signal. *)
Definition completionActivated (completion : string) (w : QTagEdit)
  : QTagEdit :=
  addTag completion (removeLastTag w).

(** [keyPressEvent] with a completer installed, on the widget as the host
    left it after handling the key: the prefix handed to the completer, or
    [None] when [complete()] is not called. *)
Definition keyPressEvent_prefix (w : QTagEdit) : option string :=
  if QString.isEmpty (text w) || Ascii.eqb (QString_back (text w)) " "
  then Some ""
  else
    let tags := getTags w in
    match tags with
    | [] => None
    | _ :: _ => Some (last tags "")
    end.

Definition kLineEditLeftMargin : Z := 3.

(** [QRect::translate(dx, dy)]. *)
Definition QRect_translate (dx dy : Z) (r : QRect.t) : QRect.t :=
  QRect.mk (QRect.x1 r + dx) (QRect.y1 r + dy) (QRect.x2 r + dx)
    (QRect.y2 r + dy).

(** The primitives [paintEvent] asks of the host style. *)
Inductive PrimitiveElement : Set := PE_PanelLineEdit | PE_FrameLineEdit.

(** The steps of a paint event: the host's own painting, a primitive of the
    host style, or a command of the tag renderer. *)
Inductive PaintStep : Set :=
| HostPaintEvent
| DrawPrimitive (element : PrimitiveElement)
| Painted (cmd : PaintCommand).

(** [paintEvent]; [contents] is the rectangle the host style gives for
    [SE_LineEditContents]. *)
Definition paintEvent (w : QTagEdit) (fm : QFontMetrics) (contents : QRect.t)
  (hasFocus : bool) : list PaintStep :=
  let content_rect := QRect_translate kLineEditLeftMargin 0 contents in
  if hasFocus then
    HostPaintEvent
    :: map Painted (renderTagBackgrounds w fm content_rect true)
  else
    DrawPrimitive PE_PanelLineEdit :: DrawPrimitive PE_FrameLineEdit
    :: map Painted (renderTagBackgrounds w fm content_rect false
                    ++ renderTags w fm content_rect)%list.

(** The commands of the tag renderer among the steps of a paint event. *)
Definition painted (steps : list PaintStep) : list PaintCommand :=
  flat_map (fun s => match s with
                     | Painted cmd => [cmd]
                     | _ => []
                     end) steps.

(** What a list of commands fills, underlines, writes and sets as pen. *)
Definition filled (cmds : list PaintCommand) : list (QRect.t * QColor) :=
  flat_map (fun c => match c with
                     | FillPath rect brush => [(rect, brush)]
                     | _ => []
                     end) cmds.

Definition drawn_lines (cmds : list PaintCommand) : list (QPoint * QPoint) :=
  flat_map (fun c => match c with
                     | DrawLine p1 p2 => [(p1, p2)]
                     | _ => []
                     end) cmds.

Definition drawn_texts (cmds : list PaintCommand) : list (QRect.t * string) :=
  flat_map (fun c => match c with
                     | DrawText rect txt => [(rect, txt)]
                     | _ => []
                     end) cmds.

Definition set_pens (cmds : list PaintCommand) : list QPen :=
  flat_map (fun c => match c with
                     | SetPen pen => [pen]
                     | _ => []
                     end) cmds.

(** The style of a tag in [renderTagBackgrounds]: decided by the filter on
    the name part of the tag. *)
Definition style_of (w : QTagEdit) (tag : string) : Style :=
  if Filter w (tag_key (separator w) tag) then primary w else secondary w.

(** The underlines of a row of tags: each at height [y], from the offset of
    the tag over the measured width of the tag. *)
Fixpoint underlines (fm : QFontMetrics) (y x : Z) (tags : list string)
  : list (QPoint * QPoint) :=
  match tags with
  | [] => []
  | tag :: rest =>
      (mkPoint x y, mkPoint (x + horizontalAdvance fm tag - 1) y)
      :: underlines fm y (x + horizontalAdvance fm (tag ++ " ")) rest
  end.

(** The shadings of a tag drawn at [x]: a rectangle under the whole tag in
    the shade colour and, for a tag with a separator, a rectangle under the
    separator and what follows it, placed after the measured width of the
    name, in the property colour. *)
Definition tag_shadings (w : QTagEdit) (fm : QFontMetrics) (text_y x : Z)
  (tag : string) : list (QRect.t * QColor) :=
  let value_part :=
    match separator w with
    | Some sep =>
        match after_first sep tag with
        | Some values => Some (sep, values)
        | None => None
        end
    | None => None
    end in
  match value_part with
  | Some (sep, values) =>
      [ (text_rect fm text_y tag x kTagMarginsWithProperty,
         shade_color (style_of w tag));
        (text_rect fm text_y (String sep values)
           (x + horizontalAdvance fm (before_first sep tag))
           kPropertyMargins,
         property_color (style_of w tag)) ]
  | None =>
      [ (text_rect fm text_y tag x kTagMargins,
         shade_color (style_of w tag)) ]
  end.

(** The shadings of a row of tags. *)
Fixpoint shadings (w : QTagEdit) (fm : QFontMetrics) (text_y x : Z)
  (tags : list string) : list (QRect.t * QColor) :=
  match tags with
  | [] => []
  | tag :: rest =>
      (tag_shadings w fm text_y x tag
       ++ shadings w fm text_y (x + horizontalAdvance fm (tag ++ " ")) rest)%list
  end.

(** The pen of the underline of a tag. *)
Definition line_pen_of (w : QTagEdit) (tag : string) : QPen :=
  if isEnabled w then mkPen (line_color (style_of w tag)) kLineWidth
  else mkPen lightgray kLineWidth.

(** The pen of the text of a tag: the filter sees the whole tag. *)
Definition text_pen_of (w : QTagEdit) (tag : string) : QPen :=
  let pen :=
    getPenForColor
      (property_color (if Filter w tag then primary w else secondary w)) in
  if isEnabled w then pen else mkPen gray (pen_width pen).

(** No two neighbours of a list are the same under [same]. *)
Fixpoint adjacent_distinct {A : Type} (same : A -> A -> bool) (l : list A)
  : Prop :=
  match l with
  | [] => True
  | x :: rest =>
      match rest with
      | [] => True
      | y :: _ => same x y = false /\ adjacent_distinct same rest
      end
  end.

(** A property that its token stands for without loss: the token is a tag,
    and neither the name nor a value holds the separator. *)
Definition representable (sep : ascii) (p : Property) : Prop :=
  plain_tag (token_of_property sep p)
  /\ QString.contains sep (name p) = false
  /\ Forall (fun value => QString.contains sep value = false) (values p).

(** The slot of the example that mirrors the property names into a plain
    line edit: the names, each followed by [", "], with the last two code
    units chopped. *)
Definition mirrored_names (w : QTagEdit) : string :=
  QString_chop 2
    (fold_left (fun text prop => text ++ (name prop ++ ", "))
       (getProperties w) "").

(** * Facts *)

(** ** Strings *)

Section StringFacts.

Lemma string_app_empty_r (s : string) : s ++ "" = s.
Proof. induction s as [| c s IH]; simpl; [reflexivity | now rewrite IH]. Qed.

Lemma string_app_assoc (a b c : string) : (a ++ b) ++ c = a ++ (b ++ c).
Proof. induction a as [| x a IH]; simpl; [reflexivity | now rewrite IH]. Qed.

Lemma string_length_app (a b : string) :
  String.length (a ++ b) = (String.length a + String.length b)%nat.
Proof. induction a as [| x a IH]; simpl; [reflexivity | now rewrite IH]. Qed.

Lemma left_app (a b : string) : QString.left (String.length a) (a ++ b) = a.
Proof. induction a as [| x a IH]; simpl; [now destruct b | now rewrite IH]. Qed.

Lemma lastIndexOf_absent (ch : ascii) (s : string) :
  QString.contains ch s = false -> QString.lastIndexOf ch s = -1.
Proof.
  induction s as [| c s IH]; simpl; [reflexivity |].
  destruct (Ascii.eqb c ch); [discriminate |].
  intros H. rewrite (IH H). reflexivity.
Qed.

Lemma lastIndexOf_range (ch : ascii) (s : string) :
  -1 <= QString.lastIndexOf ch s < QString.size s.
Proof.
  unfold QString.size.
  induction s as [| c s IH]; simpl String.length; simpl QString.lastIndexOf.
  - lia.
  - destruct (0 <=? QString.lastIndexOf ch s) eqn:E.
    + apply Z.leb_le in E. lia.
    + destruct (Ascii.eqb c ch); lia.
Qed.

(** The last occurrence is where the text splits into a prefix and a
    suffix free of the character. *)
Lemma lastIndexOf_app (ch : ascii) (pre post : string) :
  QString.contains ch post = false ->
  QString.lastIndexOf ch (pre ++ String ch post) = QString.size pre.
Proof.
  intros Hpost. unfold QString.size.
  induction pre as [| c pre IH]; simpl String.length; simpl append;
    simpl QString.lastIndexOf.
  - rewrite (lastIndexOf_absent _ _ Hpost). simpl.
    now rewrite Ascii.eqb_refl.
  - rewrite IH.
    destruct (0 <=? Z.of_nat (String.length pre)) eqn:E.
    + lia.
    + apply Z.leb_gt in E. lia.
Qed.

Lemma truncate_app (a b : string) :
  QString.truncate (QString.size a) (a ++ b) = a.
Proof.
  unfold QString.truncate, QString.size.
  rewrite string_length_app, Nat2Z.id.
  destruct (Z.of_nat (String.length a)
            <? Z.of_nat (String.length a + String.length b)) eqn:E.
  - apply left_app.
  - apply Z.ltb_ge in E.
    assert (String.length b = 0%nat) as Hb by lia.
    destruct b; [apply string_app_empty_r | discriminate].
Qed.

Lemma isEmpty_true (s : string) : QString.isEmpty s = true <-> s = "".
Proof. destruct s; simpl; split; congruence. Qed.

Lemma isEmpty_false (s : string) : QString.isEmpty s = false <-> s <> "".
Proof. destruct s; simpl; split; congruence. Qed.

(** *** Segments *)

Lemma segments_not_nil (sep : ascii) (s : string) :
  QString.segments sep s <> [].
Proof.
  destruct s as [| c s]; simpl; [discriminate |].
  destruct (Ascii.eqb c sep); [discriminate |].
  destruct (QString.segments sep s); discriminate.
Qed.

Lemma segments_absent (sep : ascii) (s : string) :
  QString.contains sep s = false -> QString.segments sep s = [s].
Proof.
  induction s as [| c s IH]; simpl; [reflexivity |].
  destruct (Ascii.eqb c sep); [discriminate |].
  intros H. now rewrite (IH H).
Qed.

Lemma segments_app (sep : ascii) (a b : string) :
  QString.contains sep a = false ->
  QString.segments sep (a ++ String sep b) = a :: QString.segments sep b.
Proof.
  induction a as [| c a IH]; simpl.
  - intros _. now rewrite Ascii.eqb_refl.
  - destruct (Ascii.eqb c sep); [discriminate |].
    intros H. now rewrite (IH H).
Qed.

Lemma segments_free (sep : ascii) (s : string) :
  Forall (fun seg => QString.contains sep seg = false)
    (QString.segments sep s).
Proof.
  induction s as [| c s IH]; simpl.
  - repeat constructor.
  - destruct (Ascii.eqb c sep) eqn:E.
    + constructor; [reflexivity | exact IH].
    + destruct (QString.segments sep s) as [| seg segs].
      * constructor; [simpl; now rewrite E | constructor].
      * inversion IH; subst. constructor; [simpl; now rewrite E | assumption].
Qed.

(** Joining the segments with the separator gives the string back. *)
Lemma join_segments (sep : ascii) (s : string) :
  QStringList.join (String sep "") (QString.segments sep s) = s.
Proof.
  induction s as [| c s IH]; simpl; [reflexivity |].
  destruct (Ascii.eqb c sep) eqn:E.
  - apply Ascii.eqb_eq in E; subst c.
    pose proof (segments_not_nil sep s) as Hne.
    destruct (QString.segments sep s) as [| seg segs]; [congruence |].
    simpl in *. now rewrite IH.
  - pose proof (segments_not_nil sep s) as Hne.
    destruct (QString.segments sep s) as [| seg segs]; [congruence |].
    destruct segs as [| seg' segs]; simpl in *; now rewrite <- IH.
Qed.

(** Splitting a joined list of separator free strings gives the list. *)
Lemma segments_join (sep : ascii) (l : list string) :
  l <> [] ->
  Forall (fun seg => QString.contains sep seg = false) l ->
  QString.segments sep (QStringList.join (String sep "") l) = l.
Proof.
  induction l as [| x l IH]; [congruence |].
  intros _ Hall. inversion Hall as [| ? ? Hx Hl]; subst.
  destruct l as [| y l].
  - simpl. now apply segments_absent.
  - change (QStringList.join (String sep "") (x :: y :: l))
      with (x ++ String sep (QStringList.join (String sep "") (y :: l))).
    rewrite (segments_app _ _ _ Hx), IH; [reflexivity | discriminate | exact Hl].
Qed.

Lemma segments_first (sep : ascii) (s : string) :
  QString.segments sep s
  = before_first sep s :: remaining_segments sep s.
Proof.
  unfold remaining_segments.
  induction s as [| c s IH]; simpl; [reflexivity |].
  destruct (Ascii.eqb c sep); [reflexivity |].
  rewrite IH. reflexivity.
Qed.

End StringFacts.

(** *** Occurrences of a character *)

Section OccurrenceFacts.

Variable ch : ascii.

Lemma first_occurrence (s : string) :
  QString.contains ch s = true ->
  exists a b : string, s = a ++ String ch b /\ QString.contains ch a = false.
Proof.
  induction s as [| c s IH]; simpl; [discriminate |].
  destruct (Ascii.eqb c ch) eqn:E.
  - intros _. apply Ascii.eqb_eq in E; subst c.
    exists "", s. split; reflexivity.
  - intros H. destruct (IH H) as (a & b & -> & Ha).
    exists (String c a), b. split; [reflexivity |].
    simpl. now rewrite E.
Qed.

Lemma last_occurrence (s : string) :
  QString.contains ch s = true ->
  exists a b : string, s = a ++ String ch b /\ QString.contains ch b = false.
Proof.
  induction s as [| c s IH]; simpl; [discriminate |].
  destruct (QString.contains ch s) eqn:Hs.
  - intros _. destruct (IH eq_refl) as (a & b & -> & Hb).
    exists (String c a), b. split; [reflexivity | exact Hb].
  - destruct (Ascii.eqb c ch) eqn:E; [| discriminate].
    intros _. apply Ascii.eqb_eq in E; subst c.
    exists "", s. split; [reflexivity | exact Hs].
Qed.

End OccurrenceFacts.

(** ** Well spaced strings and their segments *)

Section Spacing.

Variable sep : ascii.

Lemma segments_head_nonempty (s : string) :
  s <> "" -> starts_with (is_char sep) s = false ->
  hd "" (QString.segments sep s) <> "".
Proof.
  destruct s as [| c s]; [congruence |].
  intros _ Hc. simpl in *. unfold is_char in Hc. rewrite Hc.
  destruct (QString.segments sep s); simpl; discriminate.
Qed.

Lemma segments_tail_nonempty (s : string) :
  ends_with (is_char sep) s = false -> has_doubled (is_char sep) s = false ->
  Forall (fun seg => seg <> "") (tl (QString.segments sep s)).
Proof.
  induction s as [| c s IH]; simpl; [constructor |].
  intros Hend Hdbl.
  apply orb_false_iff in Hdbl as [Hpair Hdbl].
  destruct (Ascii.eqb c sep) eqn:E.
  - simpl.
    assert ((is_char sep) c = true) as Hc by exact E.
    rewrite Hc in Hpair. simpl in Hpair.
    destruct s as [| d s]; [rewrite Hc in Hend; discriminate |].
    specialize (IH Hend Hdbl).
    pose proof (segments_head_nonempty (String d s)) as Hhd.
    pose proof (segments_not_nil sep (String d s)) as Hne.
    destruct (QString.segments sep (String d s)) as [| seg segs];
      [congruence |].
    constructor; [apply Hhd; [discriminate | exact Hpair] | exact IH].
  - destruct s as [| d s].
    + simpl. constructor.
    + specialize (IH Hend Hdbl).
      destruct (QString.segments sep (String d s)) as [| seg segs];
        simpl in *; [constructor | exact IH].
Qed.

Lemma segments_all_nonempty (s : string) :
  s <> "" -> well_spaced (is_char sep) s = true ->
  Forall (fun seg => seg <> "") (QString.segments sep s).
Proof.
  intros Hs Hw. unfold well_spaced in Hw.
  apply andb_true_iff in Hw as [Hw Hdbl].
  apply andb_true_iff in Hw as [Hstart Hend].
  apply negb_true_iff in Hstart, Hend, Hdbl.
  pose proof (segments_head_nonempty s Hs Hstart) as Hhd.
  pose proof (segments_tail_nonempty s Hend Hdbl) as Htl.
  destruct (QString.segments sep s) as [| seg segs]; [constructor |].
  constructor; assumption.
Qed.

Lemma filter_nonempty_id (l : list string) :
  Forall (fun seg => seg <> "") l ->
  filter (fun part => negb (QString.isEmpty part)) l = l.
Proof.
  induction 1 as [| x l Hx _ IH]; simpl; [reflexivity |].
  destruct x; [congruence |]. simpl. now rewrite IH.
Qed.

(** On a well spaced, non empty string both split behaviours agree. *)
Lemma split_well_spaced (s : string) :
  s <> "" -> well_spaced (is_char sep) s = true ->
  QString.split sep QString.SkipEmptyParts s
  = QString.split sep QString.KeepEmptyParts s.
Proof.
  intros Hs Hw. unfold QString.split.
  apply filter_nonempty_id, segments_all_nonempty; assumption.
Qed.

(** Joining the tokens of a well spaced string gives the string back. *)
Lemma join_split_well_spaced (s : string) :
  well_spaced (is_char sep) s = true ->
  QStringList.join (String sep "")
    (QString.split sep QString.SkipEmptyParts s) = s.
Proof.
  intros Hw. destruct s as [| c s]; [reflexivity |].
  rewrite split_well_spaced; [| discriminate | exact Hw].
  apply join_segments.
Qed.

(** The tokens of any string are non empty and free of the separator. *)
Lemma split_skip_tokens (s : string) :
  Forall (fun t => t <> "" /\ QString.contains sep t = false)
    (QString.split sep QString.SkipEmptyParts s).
Proof.
  unfold QString.split.
  pose proof (segments_free sep s) as Hfree.
  induction Hfree as [| x l Hx _ IH]; simpl; [constructor |].
  destruct x as [| c x]; simpl; [exact IH |].
  constructor; [split; [discriminate | exact Hx] | exact IH].
Qed.

(** Joining such tokens and splitting again gives the same tokens. *)
Lemma split_join_tokens (l : list string) :
  Forall (fun t => t <> "" /\ QString.contains sep t = false) l ->
  QString.split sep QString.SkipEmptyParts
    (QStringList.join (String sep "") l) = l.
Proof.
  intros Hall. unfold QString.split.
  destruct l as [| x l]; [reflexivity |].
  rewrite segments_join.
  - apply filter_nonempty_id.
    eapply Forall_impl; [| exact Hall]. now intros t [Ht _].
  - discriminate.
  - eapply Forall_impl; [| exact Hall]. now intros t [_ Ht].
Qed.

End Spacing.

(** ** The tag model *)

Section TagModelFacts.

Variable w : QTagEdit.

Lemma getTags_plain : Forall plain_tag (getTags w).
Proof. exact (split_skip_tokens " " (text w)). Qed.

Lemma getTags_setTags (tags : list string) :
  Forall plain_tag tags -> getTags (setTags tags w) = tags.
Proof. intros H. exact (split_join_tokens " " tags H). Qed.

Lemma removeLastTag_at_last_space (pre post : string) :
  text w = pre ++ " " ++ post ->
  QString.contains " " post = false ->
  text (removeLastTag w) = pre.
Proof.
  intros Htext Hpost. unfold removeLastTag.
  rewrite Htext. simpl append.
  rewrite (lastIndexOf_app " " pre post Hpost).
  destruct (0 <=? QString.size pre) eqn:E.
  - simpl. apply truncate_app.
  - apply Z.leb_gt in E. unfold QString.size in E. lia.
Qed.

Lemma removeLastTag_without_space :
  QString.contains " " (text w) = false -> text (removeLastTag w) = "".
Proof.
  intros Hnone. unfold removeLastTag.
  rewrite (lastIndexOf_absent " " _ Hnone). reflexivity.
Qed.

End TagModelFacts.

(** ** Properties and their tokens *)

Section PropertyFacts.

Variable sep : ascii.

Lemma fold_left_token (vs : list string) (start : string) :
  fold_left (fun tag value => tag ++ String sep value) vs start
  = start ++ concat_all (map (String sep) vs).
Proof.
  revert start.
  induction vs as [| v vs IH]; intros start; simpl.
  - now rewrite string_app_empty_r.
  - rewrite IH, string_app_assoc. reflexivity.
Qed.

Lemma property_tag_token (p : Property) :
  property_tag (Some sep) p = token_of_property sep p.
Proof. apply fold_left_token. Qed.

Lemma join_cons_token (x : string) (vs : list string) :
  QStringList.join (String sep "") (x :: vs)
  = x ++ concat_all (map (String sep) vs).
Proof.
  revert x.
  induction vs as [| v vs IH]; intros x.
  - simpl. now rewrite string_app_empty_r.
  - change (QStringList.join (String sep "") (x :: v :: vs))
      with (x ++ String sep (QStringList.join (String sep "") (v :: vs))).
    rewrite IH. reflexivity.
Qed.

(** The token of the property read from a tag is the tag. *)
Lemma token_of_property_of_tag (tag : string) :
  token_of_property sep (property_of_tag sep tag) = tag.
Proof.
  unfold token_of_property, property_of_tag. simpl.
  rewrite <- join_cons_token, <- segments_first.
  apply join_segments.
Qed.

Lemma getProperties_with_separator (w : QTagEdit) :
  separator w = Some sep ->
  getProperties w = map (property_of_tag sep) (getTags w).
Proof.
  intros Hsep. unfold getProperties. rewrite Hsep.
  induction (getTags w) as [| tag tags IH]; [reflexivity |].
  cbn [flat_map map]. rewrite IH. unfold QString.split.
  rewrite segments_first. unfold property_of_tag. simpl nth.
  destruct (remaining_segments sep tag) as [| v vs] eqn:E.
  - reflexivity.
  - replace (1 <? Z.of_nat (List.length (before_first sep tag :: v :: vs)))
      with true; [reflexivity |].
    symmetry. apply Z.ltb_lt. simpl List.length. lia.
Qed.

Lemma getProperties_without_separator (w : QTagEdit) :
  separator w = None -> getProperties w = [].
Proof.
  intros Hsep. unfold getProperties. rewrite Hsep.
  induction (getTags w) as [| tag tags IH]; simpl; [reflexivity | exact IH].
Qed.

End PropertyFacts.

(** ** Collapsing runs *)

Section UniqueFacts.

Context {A : Type}.
Variable key : A -> string.

Lemma collapse_runs_key (p q : A) (l : list A) :
  key p = key q ->
  collapse_runs (key_eq key) (Some p) l = collapse_runs (key_eq key) (Some q) l.
Proof.
  intros Hk. destruct l as [| x l]; simpl; [reflexivity |].
  unfold key_eq. now rewrite Hk.
Qed.

Lemma unique_from_collapse (kept : A) (l : list A) :
  unique_from (key_eq key) kept l = collapse_runs (key_eq key) (Some kept) l.
Proof.
  revert kept.
  induction l as [| x l IH]; intros kept; simpl; [reflexivity |].
  destruct ((key_eq key) kept x) eqn:E.
  - rewrite IH. apply collapse_runs_key.
    unfold key_eq in E. now apply String.eqb_eq in E.
  - now rewrite IH.
Qed.

(** [std::unique] under a comparison by key collapses the runs. *)
Lemma std_unique_collapse (l : list A) :
  std_unique (key_eq key) l = collapse_runs (key_eq key) None l.
Proof.
  destruct l as [| x l]; simpl; [reflexivity |].
  now rewrite unique_from_collapse.
Qed.

End UniqueFacts.

Section UniqueMapFacts.

Context {A B : Type}.
Variable f : A -> B.
Variable pred : B -> B -> bool.

Lemma unique_from_map (kept : A) (l : list A) :
  unique_from pred (f kept) (map f l)
  = map f (unique_from (fun a b => pred (f a) (f b)) kept l).
Proof.
  revert kept.
  induction l as [| x l IH]; intros kept; simpl; [reflexivity |].
  destruct (pred (f kept) (f x)); simpl; now rewrite IH.
Qed.

Lemma std_unique_map (l : list A) :
  std_unique pred (map f l)
  = map f (std_unique (fun a b => pred (f a) (f b)) l).
Proof.
  destruct l as [| x l]; simpl; [reflexivity |].
  now rewrite unique_from_map.
Qed.

End UniqueMapFacts.

Section UniqueForall.

Context {A : Type}.
Variable pred : A -> A -> bool.
Variable P : A -> Prop.

Lemma unique_from_Forall (kept : A) (l : list A) :
  Forall P l -> Forall P (unique_from pred kept l).
Proof.
  intros H. revert kept.
  induction H as [| x l Hx _ IH]; intros kept; simpl; [constructor |].
  destruct (pred kept x); [apply IH | constructor; [exact Hx | apply IH]].
Qed.

Lemma std_unique_Forall (l : list A) :
  Forall P l -> Forall P (std_unique pred l).
Proof.
  intros H. destruct H as [| x l Hx Hl]; simpl; [constructor |].
  constructor; [exact Hx | now apply unique_from_Forall].
Qed.

End UniqueForall.

(** The buffer left by [makeTagsUnique] when it runs. *)
Lemma makeTagsUnique_setTags (w : QTagEdit) :
  unique_tags w = true ->
  makeTagsUnique w
  = setTags (std_unique (same_key (separator w)) (getTags w)) w.
Proof.
  intros Hflag. unfold makeTagsUnique. rewrite Hflag. simpl negb. cbv iota.
  destruct (separator w) as [sep |] eqn:Hsep; [| reflexivity].
  rewrite (getProperties_with_separator sep w Hsep).
  rewrite (std_unique_map (property_of_tag sep)
             (fun a b => String.eqb (name a) (name b))).
  change (fun a b : string =>
            String.eqb (name (property_of_tag sep a))
              (name (property_of_tag sep b)))
    with (same_key (Some sep)).
  unfold setProperties. rewrite Hsep, map_map.
  rewrite (map_ext _ (fun tag => tag)), map_id; [reflexivity |].
  intros tag. rewrite property_tag_token. apply token_of_property_of_tag.
Qed.

(** The tags left by [makeTagsUnique] when it runs. *)
Lemma getTags_makeTagsUnique (w : QTagEdit) :
  unique_tags w = true ->
  getTags (makeTagsUnique w)
  = std_unique (same_key (separator w)) (getTags w).
Proof.
  intros Hflag. rewrite (makeTagsUnique_setTags w Hflag).
  apply getTags_setTags, std_unique_Forall, getTags_plain.
Qed.

(** ** Claims about the tag model *)

(** C4. Round trip of the tag model.  For every sequence of non-empty strings
    without a space, [getTags] after [setTags] returns the sequence.  For
    every string [s] without leading, trailing or doubled spaces, setting
    the tokens of [s] and reading the tags back yields the tokens of [s], the
    buffer then holds [s] itself, and (when [s] is not empty) the tokens are
    the same whether empty parts are skipped or kept. *)
Theorem setTags_getTags_roundtrip (w : QTagEdit) :
  (forall tags : list string,
      Forall plain_tag tags -> getTags (setTags tags w) = tags)
  /\ (forall s : string,
         well_spaced is_blank s = true ->
         let tokens := QString.split " " QString.SkipEmptyParts s in
         getTags (setTags tokens w) = tokens
         /\ text (setTags tokens w) = s
         /\ (s <> "" ->
             QString.split " " QString.KeepEmptyParts s = tokens)).
Proof.
  split.
  - intros tags Htags. now apply getTags_setTags.
  - intros s Hs tokens. repeat split.
    + apply getTags_setTags. exact (split_skip_tokens " " s).
    + exact (join_split_well_spaced " " s Hs).
    + intros Hne. symmetry. exact (split_well_spaced " " s Hne Hs).
Qed.

Lemma setTags_getTags_roundtrip_witness :
  getTags (setTags ["wow"; "such"; "tags"] QTagEdit_new)
  = ["wow"; "such"; "tags"]
  /\ text (setTags (QString.split " " QString.SkipEmptyParts "wow such tags")
             QTagEdit_new) = "wow such tags".
Proof.
  split.
  - apply (proj1 (setTags_getTags_roundtrip QTagEdit_new)).
    repeat constructor; discriminate.
  - apply (proj2 (setTags_getTags_roundtrip QTagEdit_new) "wow such tags").
    reflexivity.
Defined.

(** C7. When the buffer holds a space, [removeLastTag] truncates it at its
    last space, dropping that space and everything after it; a buffer
    without a space is cleared: ["a b c"] becomes ["a b"] and ["a"] becomes
    [""]. *)
Theorem removeLastTag_spec (w : QTagEdit) :
  (QString.contains " " (text w) = true ->
   exists pre post : string,
     text w = pre ++ " " ++ post
     /\ QString.contains " " post = false
     /\ text (removeLastTag w) = pre)
  /\ (forall pre post : string,
         text w = pre ++ " " ++ post ->
         QString.contains " " post = false ->
         text (removeLastTag w) = pre)
  /\ (QString.contains " " (text w) = false -> text (removeLastTag w) = "")
  /\ text (removeLastTag (setText "a b c" w)) = "a b"
  /\ text (removeLastTag (setText "a" w)) = "".
Proof.
  split; [| split; [| split; [| split; reflexivity]]].
  - intros Hsp.
    destruct (last_occurrence " " (text w) Hsp) as (pre & post & Htext & Hpost).
    exists pre, post. split; [exact Htext |]. split; [exact Hpost |].
    now apply removeLastTag_at_last_space with (post := post).
  - apply removeLastTag_at_last_space.
  - apply removeLastTag_without_space.
Qed.

Lemma removeLastTag_spec_witness :
  (exists pre post : string,
      "wow such" = pre ++ " " ++ post
      /\ QString.contains " " post = false
      /\ text (removeLastTag (setText "wow such" QTagEdit_new)) = pre)
  /\ text (removeLastTag (setText "wow such" QTagEdit_new)) = "wow"
  /\ text (removeLastTag (setText "wow" QTagEdit_new)) = "".
Proof.
  split; [| split].
  - apply (proj1 (removeLastTag_spec (setText "wow such" QTagEdit_new))).
    reflexivity.
  - apply (proj1 (proj2 (removeLastTag_spec (setText "wow such" QTagEdit_new)))
             "wow" "such"); reflexivity.
  - apply (proj1 (proj2 (proj2
             (removeLastTag_spec (setText "wow" QTagEdit_new)))));
      reflexivity.
Defined.

(** C10. For every buffer and every tag without a space, [addTag] followed
    by [removeLastTag] restores the text of the buffer. *)
Theorem addTag_removeLastTag (w : QTagEdit) (tag : string) :
  QString.contains " " tag = false ->
  text (removeLastTag (addTag tag w)) = text w.
Proof.
  intros Htag. unfold addTag.
  destruct (QString.isEmpty (text w)) eqn:E.
  - apply isEmpty_true in E. rewrite E.
    apply removeLastTag_without_space. exact Htag.
  - apply (removeLastTag_at_last_space _ (text w) tag);
      [reflexivity | exact Htag].
Qed.

Lemma addTag_removeLastTag_witness :
  text (removeLastTag (addTag "tags" (setText "wow such" QTagEdit_new)))
  = "wow such".
Proof.
  apply (addTag_removeLastTag (setText "wow such" QTagEdit_new) "tags").
  reflexivity.
Defined.

(** C1. With a separator configured, [getProperties] returns, for the tags of
    [getTags] in order, the property whose name is the segment of the tag
    before its first separator and whose values are the remaining separator
    delimited segments (none when the tag has no separator); without a
    separator it returns the empty sequence whatever the buffer holds.  With
    separator [=] and tags ["a=1=2"] and ["b"] it returns the property [a]
    with values [1] and [2], then the property [b] without values. *)
Theorem getProperties_spec (w : QTagEdit) :
  getProperties w
  = match separator w with
    | Some sep => map (property_of_tag sep) (getTags w)
    | None => []
    end
  /\ getProperties (setTags ["a=1=2"; "b"] (setPropertySeparator "=" w))
     = [ {| name := "a"; values := ["1"; "2"] |};
         {| name := "b"; values := [] |} ].
Proof.
  split.
  - destruct (separator w) as [sep |] eqn:Hsep.
    + now apply getProperties_with_separator.
    + now apply getProperties_without_separator.
  - reflexivity.
Qed.

(** C2, as the code has it.  With a separator configured, [setProperties]
    turns each property into one token, the name followed by the separator
    and the value for each value in order, and passes the tokens to
    [setTags]; [getTags] then yields exactly those tokens provided each of
    them is non-empty and holds no space.  In particular the property [x]
    with values [1] and [2] under separator [=] gives the single tag
    ["x=1=2"]. *)
Theorem setProperties_spec (w : QTagEdit) (sep : ascii)
  (properties : list Property) :
  separator w = Some sep ->
  let tokens := map (token_of_property sep) properties in
  setProperties properties w = setTags tokens w
  /\ (Forall plain_tag tokens -> getTags (setProperties properties w) = tokens)
  /\ getTags (setProperties [ {| name := "x"; values := ["1"; "2"] |} ]
                (setPropertySeparator "=" w)) = ["x=1=2"].
Proof.
  intros Hsep tokens.
  assert (setProperties properties w = setTags tokens w) as Heq.
  { unfold setProperties. rewrite Hsep. f_equal.
    apply map_ext. intros p. apply property_tag_token. }
  repeat split.
  - exact Heq.
  - intros Hplain. rewrite Heq. now apply getTags_setTags.
Qed.

Lemma setProperties_spec_witness :
  getTags (setProperties [ {| name := "width"; values := ["10"] |};
                           {| name := "box"; values := [] |} ]
             (setPropertySeparator "=" QTagEdit_new))
  = ["width=10"; "box"].
Proof.
  apply (proj1 (proj2 (setProperties_spec
                         (setPropertySeparator "=" QTagEdit_new) "="
                         [ {| name := "width"; values := ["10"] |};
                           {| name := "box"; values := [] |} ]
                         eq_refl))).
  repeat constructor; discriminate.
Defined.

(** C2 as stated fails: a value holding a space makes a token that [getTags]
    reads back as two tags. *)
Lemma setProperties_getTags_counterexample :
  getTags (setProperties [ {| name := "title"; values := ["hello world"] |} ]
             (setPropertySeparator "=" QTagEdit_new))
  = ["title=hello"; "world"]
  /\ getTags (setProperties [ {| name := "title"; values := ["hello world"] |} ]
                (setPropertySeparator "=" QTagEdit_new))
     <> map (token_of_property "=")
          [ {| name := "title"; values := ["hello world"] |} ].
Proof. split; [reflexivity | discriminate]. Qed.

(** C3. [makeTagsUnique] changes nothing when unique tags are off.  When
    they are on, the tags it leaves are the tags it found with every run of
    consecutive duplicates collapsed to its first entry: an entry stays
    exactly when it is the first one or differs from the entry right before
    it, compared by the property name when a separator is configured and by
    the whole tag otherwise.  Duplicates that are not adjacent stay: the tags
    [a a b a] become [a b a]. *)
Theorem makeTagsUnique_spec (w : QTagEdit) :
  (unique_tags w = false -> makeTagsUnique w = w)
  /\ (unique_tags w = true ->
      makeTagsUnique w
      = setTags (collapse_runs (same_key (separator w)) None (getTags w)) w)
  /\ (unique_tags w = true ->
      getTags (makeTagsUnique w)
      = collapse_runs (same_key (separator w)) None (getTags w))
  /\ (unique_tags w = true ->
      getTags w = ["a"; "a"; "b"; "a"] ->
      getTags (makeTagsUnique w) = ["a"; "b"; "a"]).
Proof.
  assert (unique_tags w = true ->
          getTags (makeTagsUnique w)
          = collapse_runs (same_key (separator w)) None (getTags w)) as Hrun.
  { intros Hflag. rewrite (getTags_makeTagsUnique w Hflag).
    apply std_unique_collapse. }
  split; [| split; [| split]].
  - intros Hflag. unfold makeTagsUnique. now rewrite Hflag.
  - intros Hflag. rewrite (makeTagsUnique_setTags w Hflag).
    unfold same_key. now rewrite std_unique_collapse.
  - exact Hrun.
  - intros Hflag Htags. rewrite (Hrun Hflag), Htags.
    destruct (separator w) as [sep |]; [| reflexivity].
    unfold same_key, key_eq, tag_key. cbn [collapse_runs before_first].
    destruct (Ascii.eqb "a" sep) eqn:Ha; destruct (Ascii.eqb "b" sep) eqn:Hb;
      try reflexivity.
    apply Ascii.eqb_eq in Ha, Hb. subst sep. discriminate.
Qed.

Lemma makeTagsUnique_spec_witness :
  makeTagsUnique (setUniqueTags false (setTags ["a"; "a"] QTagEdit_new))
  = setUniqueTags false (setTags ["a"; "a"] QTagEdit_new)
  /\ text (makeTagsUnique (setTags ["a"; "a"; "b"] QTagEdit_new)) = "a b"
  /\ getTags (makeTagsUnique
                (setTags ["w=1"; "w=2"; "h=1"; "w=3"]
                   (setPropertySeparator "=" QTagEdit_new)))
     = ["w=1"; "h=1"; "w=3"]
  /\ getTags (makeTagsUnique (setTags ["a"; "a"; "b"; "a"] QTagEdit_new))
     = ["a"; "b"; "a"].
Proof.
  split; [| split; [| split]].
  - apply (proj1 (makeTagsUnique_spec
                    (setUniqueTags false (setTags ["a"; "a"] QTagEdit_new)))).
    reflexivity.
  - apply (f_equal text
             (proj1 (proj2 (makeTagsUnique_spec
                              (setTags ["a"; "a"; "b"] QTagEdit_new)))
                eq_refl)).
  - apply (proj1 (proj2 (proj2 (makeTagsUnique_spec
                                  (setTags ["w=1"; "w=2"; "h=1"; "w=3"]
                                     (setPropertySeparator "=" QTagEdit_new)))))).
    reflexivity.
  - apply (proj2 (proj2 (proj2 (makeTagsUnique_spec
                                  (setTags ["a"; "a"; "b"; "a"] QTagEdit_new)))));
      reflexivity.
Defined.

(** C5. [addProperty] appends a space and the token of the property (the name
    followed by the separator and the value for each value) to the buffer,
    whatever the buffer holds; on an empty buffer the new buffer therefore
    starts with a space. *)
Theorem addProperty_spec (w : QTagEdit) (property : Property) :
  text (addProperty property w)
  = text w ++ " " ++ property_tag (separator w) property
  /\ (forall sep : ascii,
         separator w = Some sep ->
         text (addProperty property w)
         = text w ++ " " ++ token_of_property sep property)
  /\ (text w = "" ->
      text (addProperty property w)
      = String " " (property_tag (separator w) property)).
Proof.
  repeat split.
  - intros sep Hsep. unfold addProperty. rewrite Hsep, property_tag_token.
    reflexivity.
  - intros Hempty. unfold addProperty. rewrite Hempty. reflexivity.
Qed.

Lemma addProperty_spec_witness :
  text (addProperty {| name := "width"; values := ["10"; "20"] |}
          (setPropertySeparator "=" QTagEdit_new))
  = " width=10=20"
  /\ text (addProperty {| name := "box"; values := [] |} QTagEdit_new)
     = " box".
Proof.
  split.
  - apply (proj1 (proj2 (addProperty_spec
                           (setPropertySeparator "=" QTagEdit_new)
                           {| name := "width"; values := ["10"; "20"] |}))
             "="%char eq_refl).
  - apply (proj2 (proj2 (addProperty_spec QTagEdit_new
                           {| name := "box"; values := [] |})) eq_refl).
Defined.

(** ** Contrast / pen selection *)

Section RangeFacts.

Lemma In_int_range (lo n : nat) (v : Z) :
  Z.of_nat lo <= v < Z.of_nat lo + Z.of_nat n -> In v (int_range lo n).
Proof.
  intros Hv. unfold int_range. apply in_map_iff.
  exists (Z.to_nat v). split; [lia |].
  apply in_seq. lia.
Qed.

Lemma forallb_int_range (lo n : nat) (check : Z -> bool) (v : Z) :
  forallb check (int_range lo n) = true ->
  Z.of_nat lo <= v < Z.of_nat lo + Z.of_nat n -> check v = true.
Proof.
  intros Hall Hv.
  exact (proj1 (forallb_forall check (int_range lo n)) Hall v
           (In_int_range lo n v Hv)).
Qed.

Lemma forall_rgb_sound (lo n : nat) (check : Z -> Z -> Z -> bool) :
  forall_rgb lo n check = true ->
  forall r g b : Z,
    Z.of_nat lo <= r < Z.of_nat lo + Z.of_nat n ->
    Z.of_nat lo <= g < Z.of_nat lo + Z.of_nat n ->
    Z.of_nat lo <= b < Z.of_nat lo + Z.of_nat n ->
    check r g b = true.
Proof.
  intros Hall r g b Hr Hg Hb. unfold forall_rgb in Hall.
  pose proof (forallb_int_range lo n _ r Hall Hr) as H1. cbv beta in H1.
  pose proof (forallb_int_range lo n _ g H1 Hg) as H2. cbv beta in H2.
  exact (forallb_int_range lo n _ b H2 Hb).
Qed.

End RangeFacts.

Section ContrastFacts.

(** Without rounding, the channel scaling of the code is the blend toward
    white of the specification. *)
Lemma scale_a_exact_blend (a value : Z) :
  (scale_a_exact a value == blend_toward_white a value)%Q.
Proof. unfold scale_a_exact, blend_toward_white. field. Qed.

Lemma scale_a_alpha (c : QColor) (value : Z) :
  scale_a c value = scale_a (mkColor 0 0 0 (alpha c)) value.
Proof. reflexivity. Qed.

Lemma blend_close_all :
  forallb (fun a => forallb (blend_close a) (int_range 0 256))
    (int_range 0 256) = true.
Proof. vm_compute. reflexivity. Qed.

(** In binary64 every blended channel is within the tolerance of the exact
    blend. *)
Lemma scale_a_blend (c : QColor) (value : Z) :
  channel (alpha c) -> channel value ->
  (Qabs (Q_of_double (scale_a c value)
         - blend_toward_white (alpha c) value) <= blend_tolerance)%Q.
Proof.
  intros Ha Hv. unfold channel in *.
  rewrite scale_a_alpha. apply Qle_bool_iff.
  pose proof (forallb_int_range 0 256 _ (alpha c) blend_close_all) as H.
  cbv beta in H.
  change (blend_close (alpha c) value = true).
  apply (forallb_int_range 0 256 (blend_close (alpha c)) value);
    [apply H |]; simpl; lia.
Qed.

Lemma scale_a_transparent_table :
  map (fun n => scale_a (mkColor 0 0 0 0) (Z.of_nat n)) (seq 0 256)
  = repeat 255%float 256.
Proof. vm_compute. reflexivity. Qed.

(** A fully transparent colour blends every channel to white exactly. *)
Lemma scale_a_transparent (c : QColor) (value : Z) :
  alpha c = 0 -> channel value -> scale_a c value = 255%float.
Proof.
  intros Ha Hv. unfold channel in Hv.
  rewrite scale_a_alpha, Ha.
  replace value with (Z.of_nat (Z.to_nat value)) by lia.
  assert (Z.to_nat value < 256)%nat as Hn by lia.
  pose proof (f_equal (fun l => nth (Z.to_nat value) l 0%float)
                scale_a_transparent_table) as H.
  cbv beta in H.
  rewrite nth_repeat_lt in H by exact Hn.
  rewrite <- H.
  rewrite (nth_indep _ 0%float
             (scale_a (mkColor 0 0 0 0) (Z.of_nat 0)))
    by (rewrite length_map, length_seq; exact Hn).
  rewrite (map_nth (fun n => scale_a (mkColor 0 0 0 0) (Z.of_nat n))).
  rewrite seq_nth by exact Hn. reflexivity.
Qed.

Lemma transparent_selects_dark (c : QColor) :
  rgba c -> getPenForColor (with_alpha 0 c) = QPen_of_color kDarkColor.
Proof.
  intros (Hr & Hg & Hb & _).
  unfold getPenForColor, weighted_color, kRgbBrightnessWeights.
  rewrite !scale_a_transparent by (try reflexivity; assumption).
  vm_compute. reflexivity.
Qed.

Lemma near_black_all :
  forall_rgb 0 65 (fun r g b => negb (selects_dark (mkColor r g b 255))) = true.
Proof. vm_compute. reflexivity. Qed.

Lemma near_white_all :
  forall_rgb 192 64 (fun r g b => selects_dark (mkColor r g b 255)) = true.
Proof. vm_compute. reflexivity. Qed.

Lemma black_by_alpha :
  forallb (fun a => Bool.eqb (selects_dark (mkColor 0 0 0 a)) (a <? 105))
    (int_range 0 256) = true.
Proof. vm_compute. reflexivity. Qed.

End ContrastFacts.

(** C8. [getPenForColor] is a function of the colour alone.  It selects the
    black pen when the weighted value exceeds 150 and the off-white pen
    (245, 245, 245) otherwise; the weighted value combines the blended red,
    green and blue channels with the weights 0.299, 0.587 and 0.114; each
    blended channel, computed in binary64, is the channel moved toward white
    by the fraction (255 - alpha) / 255 of its distance to white, up to
    rounding.  An opaque (245, 245, 245) background selects the dark pen, as
    does every opaque background with all channels from 192 on; an opaque
    background with all channels up to 64 selects the bright pen.  Whatever
    the colour, alpha lowered to 0 selects the dark pen, and a colour that
    selects the bright pen has a positive alpha to lower; for black the
    selection flips exactly below alpha 105. *)
Theorem getPenForColor_spec :
  (forall c : QColor,
      getPenForColor c
      = if PrimFloat.ltb 150 (weighted_color c)
        then mkPen (mkColor 0 0 0 255) 1
        else mkPen (mkColor 245 245 245 255) 1)
  /\ (forall c : QColor,
         weighted_color c
         = (scale_a c (red c) * 0.299 + scale_a c (green c) * 0.587
            + scale_a c (blue c) * 0.114)%float)
  /\ (forall (c : QColor) (value : Z),
         channel (alpha c) -> channel value ->
         (Qabs (Q_of_double (scale_a c value)
                - blend_toward_white (alpha c) value) <= blend_tolerance)%Q)
  /\ getPenForColor (mkColor 245 245 245 255) = QPen_of_color kDarkColor
  /\ (forall r g b : Z,
         192 <= r <= 255 -> 192 <= g <= 255 -> 192 <= b <= 255 ->
         getPenForColor (mkColor r g b 255) = QPen_of_color kDarkColor)
  /\ (forall r g b : Z,
         0 <= r <= 64 -> 0 <= g <= 64 -> 0 <= b <= 64 ->
         getPenForColor (mkColor r g b 255) = QPen_of_color kBrightColor)
  /\ (forall c : QColor,
         rgba c ->
         getPenForColor (with_alpha 0 c) = QPen_of_color kDarkColor)
  /\ (forall c : QColor,
         rgba c ->
         getPenForColor c = QPen_of_color kBrightColor -> 0 < alpha c)
  /\ (forall a : Z,
         channel a ->
         getPenForColor (mkColor 0 0 0 a)
         = QPen_of_color (if a <? 105 then kDarkColor else kBrightColor)).
Proof.
  split; [reflexivity |].
  split; [reflexivity |].
  split; [exact scale_a_blend |].
  split; [vm_compute; reflexivity |].
  split.
  { intros r g b Hr Hg Hb.
    pose proof (forall_rgb_sound 192 64 _ near_white_all r g b) as H.
    cbv beta in H. unfold getPenForColor. fold (selects_dark (mkColor r g b 255)).
    rewrite H; [reflexivity | simpl; lia ..]. }
  split.
  { intros r g b Hr Hg Hb.
    pose proof (forall_rgb_sound 0 65 _ near_black_all r g b) as H.
    cbv beta in H. unfold getPenForColor. fold (selects_dark (mkColor r g b 255)).
    apply negb_true_iff in H; [| simpl; lia ..].
    rewrite H. reflexivity. }
  split; [exact transparent_selects_dark |].
  split.
  { intros c Hc Hbright.
    destruct (Z.eq_dec (alpha c) 0) as [Hzero | Hpos].
    - pose proof (transparent_selects_dark c Hc) as Hdark.
      replace (with_alpha 0 c) with c in Hdark
        by (destruct c; simpl in Hzero; subst; reflexivity).
      rewrite Hbright in Hdark. discriminate.
    - destruct Hc as (_ & _ & _ & Ha). unfold channel in Ha. lia. }
  intros a Ha. unfold channel in Ha.
  pose proof (forallb_int_range 0 256 _ a black_by_alpha) as H.
  cbv beta in H. unfold getPenForColor. fold (selects_dark (mkColor 0 0 0 a)).
  apply Bool.eqb_prop in H; [| simpl; lia].
  rewrite H. now destruct (a <? 105).
Qed.

Lemma getPenForColor_spec_witness :
  (Qabs (Q_of_double (scale_a kPropertyColor 37)
         - blend_toward_white 90 37) <= blend_tolerance)%Q
  /\ getPenForColor (mkColor 200 210 220 255) = QPen_of_color kDarkColor
  /\ getPenForColor (mkColor 10 20 30 255) = QPen_of_color kBrightColor
  /\ getPenForColor (with_alpha 0 kPropertyColor) = QPen_of_color kDarkColor
  /\ 0 < alpha (mkColor 10 20 30 255)
  /\ getPenForColor (mkColor 0 0 0 104) = QPen_of_color kDarkColor.
Proof.
  pose proof getPenForColor_spec
    as (_ & _ & Hblend & _ & Hwhite & Hblack & Hzero & Hpos & Halpha).
  split; [| split; [| split; [| split; [| split]]]].
  - apply (Hblend kPropertyColor 37); unfold channel; simpl; lia.
  - apply (Hwhite 200 210 220); lia.
  - apply (Hblack 10 20 30); lia.
  - apply (Hzero kPropertyColor). unfold rgba, channel. simpl. lia.
  - apply (Hpos (mkColor 10 20 30 255)).
    + unfold rgba, channel. simpl. lia.
    + vm_compute. reflexivity.
  - apply (Halpha 104). unfold channel. lia.
Defined.

(** ** The tag renderer *)

Section RenderFacts.

Variable w : QTagEdit.
Variable fm : QFontMetrics.

Lemma left_moveLeft (pos : Z) (rect : QRect.t) :
  QRect.left (QRect.moveLeft pos rect) = pos.
Proof. reflexivity. Qed.

Lemma text_rect_start (text_y : Z) (str : string) (offset : Z) :
  px (QRect.bottomLeft (text_rect fm text_y str offset kTagMargins)) = offset.
Proof.
  unfold text_rect, QRect.bottomLeft, QRect.marginsAdded, QRect.moveLeft.
  simpl. apply Z.sub_0_r.
Qed.

Lemma line_offsets_app (a b : list PaintCommand) :
  line_offsets (a ++ b) = (line_offsets a ++ line_offsets b)%list.
Proof. apply flat_map_app. Qed.

Lemma text_offsets_loop (tags : list string) (rect : QRect.t) :
  text_offsets (renderTags_loop w fm tags rect)
  = offsets_from fm (QRect.left rect) tags.
Proof.
  revert rect.
  induction tags as [| tag tags IH]; intros rect; [reflexivity |].
  cbn [renderTags_loop offsets_from].
  change (text_offsets (?a :: ?b :: ?l)) with
    (text_offsets [a] ++ text_offsets [b] ++ text_offsets l)%list.
  rewrite IH, left_moveLeft. reflexivity.
Qed.

Lemma line_offsets_loop (text_y : Z) (line_only : bool)
  (tags : list string) (rect : QRect.t) :
  line_offsets (renderTagBackgrounds_loop w fm text_y line_only tags rect)
  = offsets_from fm (QRect.left rect) tags.
Proof.
  revert rect.
  induction tags as [| tag tags IH]; intros rect; [reflexivity |].
  cbn [renderTagBackgrounds_loop offsets_from].
  destruct (match separator w with
            | Some sep =>
                if 0 <=? QString.indexOf sep tag
                then
                  (QString.truncate (QString.indexOf sep tag) tag,
                   QString.sliced (Z.to_nat (QString.indexOf sep tag)) tag,
                   if Filter w (QString.truncate (QString.indexOf sep tag) tag)
                   then primary w else secondary w)
                else (tag, "", if Filter w tag then primary w else secondary w)
            | None => (tag, "", if Filter w tag then primary w else secondary w)
            end) as [[tag_only property_only] style].
  rewrite !line_offsets_app, IH, left_moveLeft.
  replace (line_offsets
             (if negb line_only && isEnabled w
              then
                FillPath
                  (text_rect fm text_y tag (QRect.left rect)
                     (if negb (QString.isEmpty property_only)
                      then kTagMarginsWithProperty else kTagMargins))
                  (shade_color style)
                :: (if negb (QString.isEmpty property_only)
                    then
                      [FillPath
                         (text_rect fm text_y property_only
                            (QRect.left rect + horizontalAdvance fm tag_only)
                            kPropertyMargins) (property_color style)]
                    else [])
              else [])) with (@nil Z)
    by (destruct (negb line_only && isEnabled w);
        destruct (negb (QString.isEmpty property_only)); reflexivity).
  cbn [line_offsets flat_map app].
  rewrite text_rect_start. reflexivity.
Qed.

Lemma text_offsets_renderTags (rect : QRect.t) :
  text_offsets (renderTags w fm rect)
  = offsets_from fm (QRect.left rect) (getTags w).
Proof. apply text_offsets_loop. Qed.

Lemma line_offsets_renderTagBackgrounds (rect : QRect.t) (line_only : bool) :
  line_offsets (renderTagBackgrounds w fm rect line_only)
  = offsets_from fm (QRect.left rect) (getTags w).
Proof. apply line_offsets_loop. Qed.

Lemma offsets_from_step (tags : list string) (x0 : Z) (i : nat)
  (tag : string) :
  nth_error tags i = Some tag ->
  (S i < List.length tags)%nat ->
  exists x : Z,
    nth_error (offsets_from fm x0 tags) i = Some x
    /\ nth_error (offsets_from fm x0 tags) (S i)
       = Some (x + horizontalAdvance fm (tag ++ " ")).
Proof.
  revert tags x0.
  induction i as [| i IH]; intros tags x0 Hi Hlen.
  - destruct tags as [| t [| t' tags]]; simpl in *; try lia.
    injection Hi as ->. exists x0. split; reflexivity.
  - destruct tags as [| t tags]; simpl in *; [discriminate |].
    apply IH; [exact Hi | lia].
Qed.

End RenderFacts.

(** C9, as the code has it.  In both rendering passes, for every tag
    sequence and every position [i] with a tag after it, the offset at which
    tag [i + 1] is drawn is the offset of tag [i] plus the width the text
    measurement gives for tag [i] with one space appended, measured as one
    string.  That is the width of the tag plus the width of a space exactly
    when the measurement adds up over that concatenation. *)
Theorem render_offsets_advance (w : QTagEdit) (fm : QFontMetrics)
  (rect : QRect.t) (line_only : bool) (i : nat) (tag : string) :
  nth_error (getTags w) i = Some tag ->
  (S i < List.length (getTags w))%nat ->
  advances_by (text_offsets (renderTags w fm rect)) i
    (horizontalAdvance fm (tag ++ " "))
  /\ advances_by (line_offsets (renderTagBackgrounds w fm rect line_only)) i
       (horizontalAdvance fm (tag ++ " "))
  /\ (horizontalAdvance fm (tag ++ " ")
      = horizontalAdvance fm tag + horizontalAdvance fm " " ->
      advances_by (text_offsets (renderTags w fm rect)) i
        (horizontalAdvance fm tag + horizontalAdvance fm " ")
      /\ advances_by (line_offsets (renderTagBackgrounds w fm rect line_only))
           i (horizontalAdvance fm tag + horizontalAdvance fm " ")).
Proof.
  intros Htag Hnext.
  pose proof (offsets_from_step fm (getTags w) (QRect.left rect) i tag
                Htag Hnext) as Hstep.
  assert (advances_by (text_offsets (renderTags w fm rect)) i
            (horizontalAdvance fm (tag ++ " "))) as Htext.
  { unfold advances_by. rewrite text_offsets_renderTags. exact Hstep. }
  assert (advances_by
            (line_offsets (renderTagBackgrounds w fm rect line_only)) i
            (horizontalAdvance fm (tag ++ " "))) as Hline.
  { unfold advances_by. rewrite line_offsets_renderTagBackgrounds.
    exact Hstep. }
  split; [exact Htext |].
  split; [exact Hline |].
  intros Hadd. rewrite <- Hadd. split; assumption.
Qed.

Lemma render_offsets_advance_witness :
  advances_by
    (text_offsets
       (renderTags (setTags ["such"; "wow"] QTagEdit_new) rounding_metrics
          (QRect.make 3 0 200 20)))
    0 (horizontalAdvance rounding_metrics "such ")
  /\ advances_by
       (line_offsets
          (renderTagBackgrounds (setTags ["such"; "wow"] QTagEdit_new)
             rounding_metrics (QRect.make 3 0 200 20) true))
       0 (horizontalAdvance rounding_metrics "such"
          + horizontalAdvance rounding_metrics " ").
Proof.
  pose proof (render_offsets_advance
                (setTags ["such"; "wow"] QTagEdit_new) rounding_metrics
                (QRect.make 3 0 200 20) true 0 "such" eq_refl
                (Nat.lt_succ_diag_r 1)) as (Htext & _ & Hadd).
  split; [exact Htext |].
  exact (proj2 (Hadd eq_refl)).
Defined.

(** C9 as stated fails for a measurement that rounds: with 7.5 pixels per
    character the tag ["a"] and the space measure 8 pixels each, the string
    ["a "] measures 15, and the second tag is drawn 15 pixels after the first
    in both passes, not 16. *)
Lemma render_offsets_counterexample :
  text_offsets
    (renderTags (setTags ["a"; "b"] QTagEdit_new) rounding_metrics
       (QRect.make 0 0 200 20)) = [0; 15]
  /\ line_offsets
       (renderTagBackgrounds (setTags ["a"; "b"] QTagEdit_new)
          rounding_metrics (QRect.make 0 0 200 20) false) = [0; 15]
  /\ 0 + horizontalAdvance rounding_metrics "a"
       + horizontalAdvance rounding_metrics " " = 16
  /\ ~ advances_by
         (text_offsets
            (renderTags (setTags ["a"; "b"] QTagEdit_new) rounding_metrics
               (QRect.make 0 0 200 20)))
         0 (horizontalAdvance rounding_metrics "a"
            + horizontalAdvance rounding_metrics " ")
  /\ ~ advances_by
         (line_offsets
            (renderTagBackgrounds (setTags ["a"; "b"] QTagEdit_new)
               rounding_metrics (QRect.make 0 0 200 20) false))
         0 (horizontalAdvance rounding_metrics "a"
            + horizontalAdvance rounding_metrics " ").
Proof.
  assert (text_offsets
            (renderTags (setTags ["a"; "b"] QTagEdit_new) rounding_metrics
               (QRect.make 0 0 200 20)) = [0; 15]) as Htext
      by (vm_compute; reflexivity).
  assert (line_offsets
            (renderTagBackgrounds (setTags ["a"; "b"] QTagEdit_new)
               rounding_metrics (QRect.make 0 0 200 20) false) = [0; 15])
    as Hline by (vm_compute; reflexivity).
  split; [exact Htext |].
  split; [exact Hline |].
  split; [reflexivity |].
  split; intros [x [H0 H1]].
  - rewrite Htext in H0, H1. simpl in H0, H1.
    injection H0 as <-. vm_compute in H1. discriminate.
  - rewrite Hline in H0, H1. simpl in H0, H1.
    injection H0 as <-. vm_compute in H1. discriminate.
Qed.

(** ** The buffer invariant *)

Section ClassFacts.

Variable p : ascii -> bool.

Lemma starts_with_app (a b : string) :
  starts_with p (a ++ b)
  = if QString.isEmpty a then starts_with p b else starts_with p a.
Proof. destruct a; reflexivity. Qed.

Lemma ends_with_app (a b : string) :
  ends_with p (a ++ b)
  = if QString.isEmpty b then ends_with p a else ends_with p b.
Proof.
  induction a as [| c a IH].
  - simpl. now destruct b.
  - cbn [append ends_with]. rewrite IH.
    destruct a as [| d a]; destruct b as [| e b]; reflexivity.
Qed.

Lemma has_doubled_app (a b : string) :
  has_doubled p (a ++ b)
  = has_doubled p a || has_doubled p b
    || (ends_with p a && starts_with p b).
Proof.
  induction a as [| c a IH].
  - simpl. now rewrite orb_false_r.
  - cbn [append has_doubled]. rewrite IH, starts_with_app.
    destruct a as [| d a].
    + simpl. destruct (p c), (starts_with p b), (has_doubled p b); reflexivity.
    + cbn [QString.isEmpty ends_with starts_with].
      destruct (p c), (p d), (has_doubled p (String d a)), (has_doubled p b),
        (ends_with p (String d a)), (starts_with p b); reflexivity.
Qed.

Lemma well_spaced_iff (s : string) :
  well_spaced p s = true
  <-> starts_with p s = false /\ ends_with p s = false
      /\ has_doubled p s = false.
Proof.
  unfold well_spaced.
  destruct (starts_with p s), (ends_with p s), (has_doubled p s);
    simpl; intuition congruence.
Qed.

(** Two well spaced, non-empty strings stay well spaced around any
    character put between them. *)
Lemma well_spaced_around (c : ascii) (a b : string) :
  a <> "" -> well_spaced p a = true ->
  b <> "" -> well_spaced p b = true ->
  well_spaced p (a ++ String c b) = true.
Proof.
  intros Ha Hwa Hb Hwb.
  apply well_spaced_iff in Hwa as (Hsa & Hea & Hda).
  apply well_spaced_iff in Hwb as (Hsb & Heb & Hdb).
  assert (ends_with p (String c b) = false) as Hecb
    by (destruct b; [congruence | exact Heb]).
  assert (has_doubled p (String c b) = false) as Hdcb
    by (cbn [has_doubled]; now rewrite Hsb, Hdb, andb_false_r).
  apply well_spaced_iff.
  rewrite starts_with_app, ends_with_app, has_doubled_app.
  rewrite (proj2 (isEmpty_false a) Ha). cbn [QString.isEmpty].
  rewrite Hecb, Hdcb, Hda, Hea. auto.
Qed.

(** A well spaced string splits at a character of the class into two well
    spaced, non-empty strings. *)
Lemma well_spaced_split (c : ascii) (a b : string) :
  p c = true ->
  well_spaced p (a ++ String c b) = true ->
  (a <> "" /\ well_spaced p a = true) /\ (b <> "" /\ well_spaced p b = true).
Proof.
  intros Hc Hw.
  apply well_spaced_iff in Hw as (Hs & He & Hd).
  rewrite starts_with_app in Hs. rewrite ends_with_app in He.
  rewrite has_doubled_app in Hd.
  apply orb_false_iff in Hd as [Hd Hjoin].
  apply orb_false_iff in Hd as [Hda Hdb].
  cbn [starts_with has_doubled QString.isEmpty] in *.
  rewrite Hc in *. rewrite andb_true_r in Hjoin. simpl in Hdb.
  apply orb_false_iff in Hdb as [Hsb Hdb].
  assert (a <> "") as Ha by (intros ->; simpl in Hs; congruence).
  assert (b <> "") as Hb by (intros ->; simpl in He; congruence).
  split; (split; [assumption |]); apply well_spaced_iff.
  - destruct a; [congruence |]. auto.
  - destruct b; [congruence |]. auto.
Qed.

End ClassFacts.

Section Monotone.

Variables p q : ascii -> bool.
Hypothesis p_in_q : forall c : ascii, p c = true -> q c = true.

Lemma starts_with_mono (s : string) :
  starts_with q s = false -> starts_with p s = false.
Proof.
  destruct s as [| c s]; simpl; [reflexivity |].
  intros Hq. destruct (p c) eqn:E; [| reflexivity].
  rewrite (p_in_q c E) in Hq. discriminate.
Qed.

Lemma ends_with_mono (s : string) :
  ends_with q s = false -> ends_with p s = false.
Proof.
  induction s as [| c s IH]; simpl; [reflexivity |].
  destruct s as [| d s]; [| exact IH].
  intros Hq. destruct (p c) eqn:E; [| reflexivity].
  rewrite (p_in_q c E) in Hq. discriminate.
Qed.

Lemma has_doubled_mono (s : string) :
  has_doubled q s = false -> has_doubled p s = false.
Proof.
  induction s as [| c s IH]; simpl; [reflexivity |].
  intros Hq. apply orb_false_iff in Hq as [Hpair Hrest].
  rewrite (IH Hrest), orb_false_r.
  destruct (p c) eqn:E; [| reflexivity].
  rewrite (p_in_q c E) in Hpair. simpl in *.
  now apply starts_with_mono.
Qed.

Lemma well_spaced_mono (s : string) :
  well_spaced q s = true -> well_spaced p s = true.
Proof.
  intros Hq. apply well_spaced_iff in Hq as (Hs & He & Hd).
  apply well_spaced_iff.
  auto using starts_with_mono, ends_with_mono, has_doubled_mono.
Qed.

End Monotone.

Section InvariantFacts.

Lemma isSpace_blank : isSpace " " = true.
Proof. reflexivity. Qed.

Lemma blank_isSpace (c : ascii) : is_char " " c = true -> isSpace c = true.
Proof.
  unfold is_char. intros H. apply Ascii.eqb_eq in H. now subst c.
Qed.

Lemma buffer_invariant_iff (s : string) :
  buffer_invariant s = true <-> well_spaced isSpace s = true.
Proof.
  unfold buffer_invariant. split.
  - intros H. now apply andb_true_iff in H as [_ H].
  - intros H. apply andb_true_iff. split; [| exact H].
    apply String.eqb_eq.
    apply (join_split_well_spaced " " s).
    exact (well_spaced_mono (is_char " ") isSpace blank_isSpace s H).
Qed.

Lemma clean_word_tight (s : string) : clean_word s -> tight s.
Proof.
  intros [Hne Hclean]. split; [exact Hne |].
  apply well_spaced_iff. clear Hne.
  induction s as [| c s IH]; [repeat split |].
  simpl in Hclean. apply orb_false_iff in Hclean as [Hc Hs].
  destruct (IH Hs) as (Hstart & Hend & Hdbl).
  repeat split; simpl.
  - exact Hc.
  - destruct s; [exact Hc | exact Hend].
  - now rewrite Hc, Hdbl.
Qed.

Lemma join_tight (l : list string) :
  Forall tight l ->
  well_spaced isSpace (QStringList.join " " l) = true
  /\ (l <> [] -> QStringList.join " " l <> "").
Proof.
  induction 1 as [| x l [Hx Hwx] Hl IH]; [split; [reflexivity | congruence] |].
  destruct l as [| y l].
  - simpl. split; [exact Hwx | intros _; exact Hx].
  - change (QStringList.join " " (x :: y :: l))
      with (x ++ String " " (QStringList.join " " (y :: l))).
    destruct IH as [IHw IHne].
    split.
    + apply well_spaced_around; try assumption. apply IHne. discriminate.
    + intros _. destruct x; [congruence | discriminate].
Qed.

Lemma segments_tight_bounded (n : nat) (s : string) :
  (String.length s <= n)%nat -> s <> "" ->
  well_spaced isSpace s = true ->
  Forall tight (QString.segments " " s).
Proof.
  revert s.
  induction n as [| n IH]; intros s Hlen Hne Hw.
  - destruct s; [congruence | simpl in Hlen; lia].
  - destruct (QString.contains " " s) eqn:Hsp.
    + destruct (first_occurrence " " s Hsp) as (a & b & -> & Ha).
      rewrite (segments_app " " a b Ha).
      destruct (well_spaced_split isSpace " " a b isSpace_blank Hw)
        as [Hta [Hb Hwb]].
      constructor; [exact Hta |].
      apply IH; [| exact Hb | exact Hwb].
      rewrite string_length_app in Hlen. simpl in Hlen. lia.
    + rewrite (segments_absent " " s Hsp).
      constructor; [split; assumption | constructor].
Qed.

(** The tags of a buffer that satisfies the invariant are tight. *)
Lemma getTags_tight (w : QTagEdit) :
  well_spaced isSpace (text w) = true -> Forall tight (getTags w).
Proof.
  intros Hw. unfold getTags, QString.split.
  destruct (text w) as [| c s] eqn:E; [constructor |].
  eapply incl_Forall; [apply incl_filter |].
  apply (segments_tight_bounded (String.length (String c s)));
    [lia | discriminate | exact Hw].
Qed.

Lemma property_tag_tight (sep : option ascii) (p : Property) :
  clean_property p -> tight (property_tag sep p).
Proof.
  intros [Hname Hvalues]. apply clean_word_tight in Hname.
  destruct sep as [c |]; [| exact Hname].
  unfold property_tag.
  revert Hname. generalize (name p) as start.
  induction Hvalues as [| v vs Hv _ IH]; intros start Hstart; [exact Hstart |].
  simpl. apply IH.
  destruct Hstart as [Hs Hws]. destruct (clean_word_tight v Hv) as [Hv' Hwv].
  split; [destruct start; [congruence | discriminate] |].
  now apply well_spaced_around.
Qed.

End InvariantFacts.

(** X22. Every operation with clean arguments keeps the invariant of the
    buffer, [addProperty] on an empty buffer apart. *)
Theorem buffer_invariant_preserved (w : QTagEdit) (op : Operation) :
  buffer_invariant (text w) = true ->
  clean_operation op ->
  ~ addProperty_on_empty op w ->
  buffer_invariant (text (run op w)) = true.
Proof.
  rewrite !buffer_invariant_iff. intros Hw Hclean Hnot.
  destruct op as [tags | tag | | properties | property | | sep | unique | f];
    simpl in *; try exact Hw.
  - apply join_tight.
    eapply Forall_impl; [| exact Hclean]. exact clean_word_tight.
  - destruct (clean_word_tight tag Hclean) as [Htag Hwtag].
    unfold addTag. destruct (QString.isEmpty (text w)) eqn:E; simpl.
    + exact Hwtag.
    + apply isEmpty_false in E. now apply well_spaced_around.
  - destruct (QString.contains " " (text w)) eqn:Hsp.
    + destruct (last_occurrence " " (text w) Hsp) as (a & b & Htext & Hb).
      rewrite (removeLastTag_at_last_space w a b Htext Hb).
      rewrite Htext in Hw.
      now destruct (well_spaced_split isSpace " " a b isSpace_blank Hw)
        as [[_ Ha] _].
    + now rewrite (removeLastTag_without_space w Hsp).
  - apply join_tight. apply Forall_map.
    eapply Forall_impl; [| exact Hclean].
    intros p. apply property_tag_tight.
  - destruct (property_tag_tight (separator w) property Hclean) as [Ht Hwt].
    now apply well_spaced_around.
  - destruct (unique_tags w) eqn:Hflag.
    + rewrite (makeTagsUnique_setTags w Hflag). simpl.
      apply join_tight, std_unique_Forall, getTags_tight. exact Hw.
    + unfold makeTagsUnique. rewrite Hflag. exact Hw.
Qed.

(** [addProperty] on an empty buffer breaks the invariant, whatever the
    property. *)
Lemma addProperty_empty_breaks (w : QTagEdit) (property : Property) :
  text w = "" -> buffer_invariant (text (addProperty property w)) = false.
Proof.
  intros Hempty. unfold addProperty, buffer_invariant. rewrite Hempty.
  apply andb_false_iff. right. reflexivity.
Qed.

(** C6 fails on the code.  A new widget has an empty buffer, which satisfies
    the invariant; [addProperty] with the clean property [a] leaves the
    buffer [" a"], which starts with a space, while [addTag] with the same
    name leaves ["a"]. *)
Theorem addProperty_breaks_buffer_invariant :
  reachable QTagEdit_new
  /\ buffer_invariant (text QTagEdit_new) = true
  /\ clean_operation (OpAddProperty {| name := "a"; values := [] |})
  /\ reachable (run (OpAddProperty {| name := "a"; values := [] |})
                  QTagEdit_new)
  /\ text (addProperty {| name := "a"; values := [] |} QTagEdit_new) = " a"
  /\ buffer_invariant
       (text (addProperty {| name := "a"; values := [] |} QTagEdit_new))
     = false
  /\ text (addTag "a" QTagEdit_new) = "a".
Proof.
  assert (clean_operation (OpAddProperty {| name := "a"; values := [] |}))
    as Hclean.
  { split; [split; [discriminate | reflexivity] | constructor]. }
  split; [constructor |].
  split; [reflexivity |].
  split; [exact Hclean |].
  split; [apply reachable_run; [constructor | exact Hclean] |].
  split; [reflexivity |].
  split; [| reflexivity].
  apply addProperty_empty_breaks. reflexivity.
Qed.

(** * Further properties of the widget *)

(** ** Tokens of concatenated buffers *)

Section TokenFacts.

Variable sep : ascii.

Lemma segments_app_any (a b : string) :
  QString.segments sep (a ++ String sep b)
  = (QString.segments sep a ++ QString.segments sep b)%list.
Proof.
  induction a as [| c a IH]; simpl.
  - now rewrite Ascii.eqb_refl.
  - destruct (Ascii.eqb c sep); rewrite IH; [reflexivity |].
    pose proof (segments_not_nil sep a) as Hne.
    destruct (QString.segments sep a); [congruence | reflexivity].
Qed.

Lemma split_skip_app (a b : string) :
  QString.split sep QString.SkipEmptyParts (a ++ String sep b)
  = (QString.split sep QString.SkipEmptyParts a
     ++ QString.split sep QString.SkipEmptyParts b)%list.
Proof. unfold QString.split. now rewrite segments_app_any, filter_app. Qed.

Lemma split_skip_absent (s : string) :
  s <> "" -> QString.contains sep s = false ->
  QString.split sep QString.SkipEmptyParts s = [s].
Proof.
  intros Hne Hs. unfold QString.split. rewrite (segments_absent sep s Hs).
  destruct s; [congruence | reflexivity].
Qed.

Lemma split_skip_join (l : list string) :
  QString.split sep QString.SkipEmptyParts
    (QStringList.join (String sep "") l)
  = flat_map (QString.split sep QString.SkipEmptyParts) l.
Proof.
  induction l as [| x l IH]; [reflexivity |].
  destruct l as [| y l].
  - simpl. now rewrite app_nil_r.
  - change (QStringList.join (String sep "") (x :: y :: l))
      with (x ++ String sep (QStringList.join (String sep "") (y :: l))).
    rewrite split_skip_app, IH. reflexivity.
Qed.

Lemma absent_well_spaced (s : string) :
  QString.contains sep s = false -> well_spaced (is_char sep) s = true.
Proof.
  intros Hs. apply well_spaced_iff.
  induction s as [| c s IH]; [repeat split |].
  simpl in Hs. destruct (Ascii.eqb c sep) eqn:E; [discriminate |].
  destruct (IH Hs) as (Hstart & Hend & Hdbl).
  repeat split; simpl; unfold is_char at 1; rewrite E.
  - reflexivity.
  - destruct s; [reflexivity | exact Hend].
  - exact Hdbl.
Qed.

Lemma join_tokens_well_spaced (l : list string) :
  Forall (fun t => t <> "" /\ QString.contains sep t = false) l ->
  well_spaced (is_char sep) (QStringList.join (String sep "") l) = true
  /\ (l <> [] -> QStringList.join (String sep "") l <> "").
Proof.
  induction 1 as [| x l [Hx Hcx] Hl IH]; [split; [reflexivity | congruence] |].
  destruct l as [| y l].
  - simpl. split; [now apply absent_well_spaced | intros _; exact Hx].
  - change (QStringList.join (String sep "") (x :: y :: l))
      with (x ++ String sep (QStringList.join (String sep "") (y :: l))).
    destruct IH as [IHw IHne]. split.
    + apply well_spaced_around;
        [exact Hx | now apply absent_well_spaced | | exact IHw].
      apply IHne. discriminate.
    + intros _. destruct x; [congruence | discriminate].
Qed.

End TokenFacts.

(** X1. Whatever the buffer holds (leading, trailing or doubled spaces),
    [getTags] returns only non-empty tags without a space; setting these tags
    back keeps them and leaves a buffer without leading, trailing or doubled
    spaces. *)
Theorem getTags_normalises (w : QTagEdit) :
  Forall plain_tag (getTags w)
  /\ getTags (setTags (getTags w) w) = getTags w
  /\ well_spaced is_blank (text (setTags (getTags w) w)) = true.
Proof.
  split; [apply getTags_plain |].
  split; [apply getTags_setTags, getTags_plain |].
  exact (proj1 (join_tokens_well_spaced " " (getTags w) (getTags_plain w))).
Qed.

(** X2. [setTags] followed by [getTags] tokenises every entry again: an entry
    with spaces comes back as several tags and an empty entry as none. *)
Theorem getTags_setTags_any (w : QTagEdit) (tags : list string) :
  getTags (setTags tags w)
  = flat_map (QString.split " " QString.SkipEmptyParts) tags.
Proof. exact (split_skip_join " " tags). Qed.

(** X3. [addTag] appends to the tag sequence: the tags afterwards are the
    tags before followed by the tokens of the argument, which is the argument
    itself when it is non-empty and holds no space.  This holds for every
    buffer, the empty one included. *)
Theorem getTags_addTag (w : QTagEdit) (tag : string) :
  getTags (addTag tag w)
  = (getTags w ++ QString.split " " QString.SkipEmptyParts tag)%list
  /\ (plain_tag tag -> getTags (addTag tag w) = (getTags w ++ [tag])%list).
Proof.
  assert (getTags (addTag tag w)
          = (getTags w ++ QString.split " " QString.SkipEmptyParts tag)%list)
    as Heq.
  { unfold addTag, getTags.
    destruct (text w) as [| c s] eqn:E; [reflexivity |].
    cbn [QString.isEmpty setText text].
    exact (split_skip_app " " (String c s) tag). }
  split; [exact Heq |].
  intros [Hne Hsp]. rewrite Heq. now rewrite (split_skip_absent " " tag Hne Hsp).
Qed.

Lemma getTags_addTag_witness :
  getTags (addTag "tags" (setText " wow  such " QTagEdit_new))
  = ["wow"; "such"; "tags"].
Proof.
  apply (proj2 (getTags_addTag (setText " wow  such " QTagEdit_new) "tags")).
  split; [discriminate | reflexivity].
Defined.

(** X4. [addProperty] appends to the tag sequence as well, the leading space
    it writes on an empty buffer notwithstanding: with a separator
    configured and a token that is non-empty and holds no space, the tags
    afterwards are the tags before followed by the token. *)
Theorem getTags_addProperty (w : QTagEdit) (sep : ascii) (p : Property) :
  separator w = Some sep ->
  plain_tag (token_of_property sep p) ->
  getTags (addProperty p w) = (getTags w ++ [token_of_property sep p])%list.
Proof.
  intros Hsep [Hne Hsp]. unfold addProperty, getTags.
  rewrite Hsep, property_tag_token. cbn [setText text].
  change (" " ++ token_of_property sep p)
    with (String " " (token_of_property sep p)).
  rewrite (split_skip_app " " (text w) (token_of_property sep p)).
  now rewrite (split_skip_absent " " _ Hne Hsp).
Qed.

Lemma getTags_addProperty_witness :
  getTags (addProperty {| name := "width"; values := ["10"] |}
             (setPropertySeparator "=" QTagEdit_new))
  = ["width=10"].
Proof.
  apply (getTags_addProperty (setPropertySeparator "=" QTagEdit_new) "="%char
           {| name := "width"; values := ["10"] |} eq_refl).
  split; [discriminate | reflexivity].
Defined.

(** ** Removing the last tag *)

Lemma absent_ends_with (ch : ascii) (s : string) :
  QString.contains ch s = false -> ends_with (is_char ch) s = false.
Proof.
  intros Hs. now apply absent_well_spaced, well_spaced_iff in Hs.
Qed.

Lemma ends_with_after_blank (a b : string) :
  ends_with is_blank (a ++ String " " b)
  = if QString.isEmpty b then true else ends_with is_blank b.
Proof. rewrite ends_with_app. now destruct b. Qed.

Lemma getTags_of_text (w : QTagEdit) (s : string) :
  text w = s -> getTags w = QString.split " " QString.SkipEmptyParts s.
Proof. intros <-. reflexivity. Qed.

(** X5. On a buffer that does not end with a space, [removeLastTag] removes
    exactly the last tag and keeps the tags before it; on a buffer that ends
    with a space it only removes that space and keeps every tag. *)
Theorem getTags_removeLastTag (w : QTagEdit) :
  (ends_with is_blank (text w) = false ->
   getTags (removeLastTag w) = removelast (getTags w))
  /\ (ends_with is_blank (text w) = true ->
      getTags (removeLastTag w) = getTags w).
Proof.
  split; intros Hend.
  - destruct (QString.contains " " (text w)) eqn:Hsp.
    + destruct (last_occurrence " " (text w) Hsp) as (a & b & Htext & Hb).
      rewrite Htext, ends_with_after_blank in Hend.
      destruct b as [| c b]; [discriminate |].
      rewrite (getTags_of_text _ _ (removeLastTag_at_last_space w a _ Htext Hb)).
      rewrite (getTags_of_text w _ Htext), split_skip_app.
      rewrite (split_skip_absent " " (String c b)) by (discriminate || exact Hb).
      now rewrite removelast_last.
    + rewrite (getTags_of_text _ _ (removeLastTag_without_space w Hsp)).
      unfold getTags.
      destruct (text w) as [| c s] eqn:E; [reflexivity |].
      now rewrite (split_skip_absent " " (String c s)) by (discriminate || exact Hsp).
  - destruct (QString.contains " " (text w)) eqn:Hsp.
    + destruct (last_occurrence " " (text w) Hsp) as (a & b & Htext & Hb).
      rewrite Htext, ends_with_after_blank in Hend.
      destruct b as [| c b].
      * rewrite (getTags_of_text _ _
                   (removeLastTag_at_last_space w a _ Htext Hb)).
        rewrite (getTags_of_text w _ Htext), split_skip_app.
        now rewrite app_nil_r.
      * simpl in Hend. change (ends_with is_blank (String c b) = true) in Hend.
        unfold is_blank in Hend.
        rewrite (absent_ends_with " " (String c b) Hb) in Hend. discriminate.
    + unfold is_blank in Hend.
      rewrite (absent_ends_with " " (text w) Hsp) in Hend. discriminate.
Qed.

Lemma getTags_removeLastTag_witness :
  getTags (removeLastTag (setText "wow such tags" QTagEdit_new))
  = ["wow"; "such"]
  /\ getTags (removeLastTag (setText "wow such " QTagEdit_new))
     = ["wow"; "such"].
Proof.
  split.
  - apply (proj1 (getTags_removeLastTag
                    (setText "wow such tags" QTagEdit_new))).
    reflexivity.
  - apply (proj2 (getTags_removeLastTag (setText "wow such " QTagEdit_new))).
    reflexivity.
Defined.

(** X6. [removeLastTag] keeps a prefix of the buffer and, on a non-empty
    buffer, drops at least one character: repeated, it empties the buffer. *)
Theorem removeLastTag_shortens (w : QTagEdit) :
  text w <> "" ->
  exists dropped : string,
    dropped <> "" /\ text w = text (removeLastTag w) ++ dropped.
Proof.
  intros Hne.
  destruct (QString.contains " " (text w)) eqn:Hsp.
  - destruct (last_occurrence " " (text w) Hsp) as (a & b & Htext & Hb).
    exists (String " " b). split; [discriminate |].
    now rewrite (removeLastTag_at_last_space w a b Htext Hb).
  - exists (text w). split; [exact Hne |].
    now rewrite (removeLastTag_without_space w Hsp).
Qed.

Lemma removeLastTag_shortens_witness :
  exists dropped : string,
    dropped <> ""
    /\ "wow such"
       = text (removeLastTag (setText "wow such" QTagEdit_new)) ++ dropped.
Proof.
  apply (removeLastTag_shortens (setText "wow such" QTagEdit_new)).
  discriminate.
Defined.

(** ** Properties read back from their tokens *)

Section RoundTripFacts.

Variable sep : ascii.

Lemma segments_token (start : string) (vs : list string) :
  QString.contains sep start = false ->
  Forall (fun value => QString.contains sep value = false) vs ->
  QString.segments sep (start ++ concat_all (map (String sep) vs))
  = start :: vs.
Proof.
  intros Hstart Hvs. revert start Hstart.
  induction Hvs as [| v vs Hv _ IH]; intros start Hstart; simpl.
  - rewrite string_app_empty_r. now apply segments_absent.
  - rewrite (segments_app sep start _ Hstart), (IH v Hv). reflexivity.
Qed.

Lemma property_of_token (p : Property) :
  QString.contains sep (name p) = false ->
  Forall (fun value => QString.contains sep value = false) (values p) ->
  property_of_tag sep (token_of_property sep p) = p.
Proof.
  intros Hname Hvalues.
  pose proof (segments_token (name p) (values p) Hname Hvalues) as Hseg.
  fold (token_of_property sep p) in Hseg.
  rewrite segments_first in Hseg. injection Hseg as Hn Hv.
  unfold property_of_tag. rewrite Hn, Hv. now destruct p.
Qed.

Lemma tags_of_properties (w : QTagEdit) :
  separator w = Some sep ->
  map (property_tag (separator w)) (getProperties w) = getTags w.
Proof.
  intros Hsep. rewrite (getProperties_with_separator sep w Hsep), Hsep.
  rewrite map_map, (map_ext _ (fun tag => tag)), map_id; [reflexivity |].
  intros tag. rewrite property_tag_token. apply token_of_property_of_tag.
Qed.

End RoundTripFacts.

(** X7. With a separator configured, [getProperties] after [setProperties]
    returns the properties that were set, provided each is representable:
    its token is non-empty and holds no space, and neither its name nor any
    of its values holds the separator. *)
Theorem getProperties_setProperties (w : QTagEdit) (sep : ascii)
  (properties : list Property) :
  separator w = Some sep ->
  Forall (representable sep) properties ->
  getProperties (setProperties properties w) = properties.
Proof.
  intros Hsep Hall.
  rewrite (getProperties_with_separator sep (setProperties properties w) Hsep).
  unfold setProperties. rewrite Hsep.
  rewrite (map_ext _ _ (property_tag_token sep)).
  rewrite getTags_setTags.
  - rewrite map_map. rewrite <- (map_id properties) at 2.
    apply map_ext_in. intros p Hp.
    destruct (proj1 (Forall_forall _ _) Hall p Hp) as (_ & Hname & Hvalues).
    now apply property_of_token.
  - apply Forall_map. eapply Forall_impl; [| exact Hall].
    now intros p (Hplain & _).
Qed.

Lemma getProperties_setProperties_witness :
  getProperties
    (setProperties [ {| name := "width"; values := ["10"; "20"] |};
                     {| name := "box"; values := [] |} ]
       (setPropertySeparator "=" QTagEdit_new))
  = [ {| name := "width"; values := ["10"; "20"] |};
      {| name := "box"; values := [] |} ].
Proof.
  apply (getProperties_setProperties
           (setPropertySeparator "=" QTagEdit_new) "="%char _ eq_refl).
  repeat constructor; discriminate.
Defined.

(** X8. Writing back the properties just read: with a separator configured
    [setProperties (getProperties ())] keeps every tag and only normalises
    the spacing of the buffer; without a separator [getProperties] is empty
    and the same call clears the buffer. *)
Theorem setProperties_getProperties (w : QTagEdit) :
  setProperties (getProperties w) w
  = match separator w with
    | Some _ => setTags (getTags w) w
    | None => setText "" w
    end.
Proof.
  destruct (separator w) as [sep |] eqn:Hsep.
  - unfold setProperties. now rewrite (tags_of_properties sep w Hsep).
  - now rewrite (getProperties_without_separator w Hsep).
Qed.

(** ** What [std::unique] leaves *)

Section DistinctFacts.

Context {A : Type}.
Variable same : A -> A -> bool.

Lemma unique_from_head (kept : A) (l : list A) :
  match unique_from same kept l with
  | [] => True
  | x :: _ => same kept x = false
  end.
Proof.
  induction l as [| x l IH]; simpl; [exact I |].
  destruct (same kept x) eqn:E; [exact IH | exact E].
Qed.

Lemma unique_from_distinct (kept : A) (l : list A) :
  adjacent_distinct same (unique_from same kept l).
Proof.
  revert kept.
  induction l as [| x l IH]; intros kept; simpl; [exact I |].
  destruct (same kept x); [apply IH |].
  pose proof (unique_from_head x l) as Hhead. specialize (IH x).
  simpl. destruct (unique_from same x l); [exact I | split; assumption].
Qed.

Lemma std_unique_distinct (l : list A) :
  adjacent_distinct same (std_unique same l).
Proof.
  destruct l as [| x l]; [exact I |].
  pose proof (unique_from_head x l) as Hhead.
  pose proof (unique_from_distinct x l) as Hrest.
  simpl. destruct (unique_from same x l); [exact I | split; assumption].
Qed.

Lemma unique_from_fixed (kept : A) (l : list A) :
  match l with
  | [] => True
  | x :: _ => same kept x = false
  end ->
  adjacent_distinct same l -> unique_from same kept l = l.
Proof.
  revert kept.
  induction l as [| x l IH]; intros kept Hhead Hl; [reflexivity |].
  simpl. rewrite Hhead. f_equal.
  destruct l as [| y l]; [reflexivity |].
  destruct Hl as [Hxy Hl]. now apply IH.
Qed.

Lemma std_unique_fixed (l : list A) :
  adjacent_distinct same l -> std_unique same l = l.
Proof.
  destruct l as [| x l]; [reflexivity |].
  intros Hl. simpl. f_equal.
  destruct l as [| y l]; [reflexivity |].
  destruct Hl as [Hxy Hl]. now apply unique_from_fixed.
Qed.

Lemma std_unique_idempotent (l : list A) :
  std_unique same (std_unique same l) = std_unique same l.
Proof. apply std_unique_fixed, std_unique_distinct. Qed.

Lemma unique_from_length (kept : A) (l : list A) :
  (List.length (unique_from same kept l) <= List.length l)%nat.
Proof.
  revert kept.
  induction l as [| x l IH]; intros kept; simpl; [lia |].
  destruct (same kept x); simpl; [specialize (IH kept) | specialize (IH x)];
    lia.
Qed.

Lemma std_unique_length (l : list A) :
  (List.length (std_unique same l) <= List.length l)%nat.
Proof.
  destruct l as [| x l]; simpl; [lia |].
  pose proof (unique_from_length x l). lia.
Qed.

End DistinctFacts.

(** X9. [makeTagsUnique] is idempotent: running it a second time changes
    nothing, whatever the buffer, the separator and the unique flag. *)
Theorem makeTagsUnique_idempotent (w : QTagEdit) :
  makeTagsUnique (makeTagsUnique w) = makeTagsUnique w.
Proof.
  destruct (unique_tags w) eqn:Hflag.
  - rewrite (makeTagsUnique_setTags w Hflag).
    set (kept := std_unique (same_key (separator w)) (getTags w)).
    rewrite (makeTagsUnique_setTags (setTags kept w) Hflag).
    rewrite (getTags_setTags w kept)
      by (apply std_unique_Forall, getTags_plain).
    change (separator (setTags kept w)) with (separator w).
    unfold kept. rewrite std_unique_idempotent. reflexivity.
  - unfold makeTagsUnique. rewrite Hflag. simpl. now rewrite Hflag.
Qed.

(** X10. With unique tags on, [makeTagsUnique] leaves no two neighbouring
    tags with the same key (the property name under a separator, the whole
    tag otherwise), never leaves more tags than it found, and keeps the tag
    sequence as it is when no two neighbours share a key. *)
Theorem makeTagsUnique_distinct (w : QTagEdit) :
  unique_tags w = true ->
  adjacent_distinct (same_key (separator w)) (getTags (makeTagsUnique w))
  /\ (List.length (getTags (makeTagsUnique w)) <= List.length (getTags w))%nat
  /\ (adjacent_distinct (same_key (separator w)) (getTags w) ->
      getTags (makeTagsUnique w) = getTags w).
Proof.
  intros Hflag. rewrite (getTags_makeTagsUnique w Hflag).
  split; [apply std_unique_distinct |].
  split; [apply std_unique_length |].
  apply std_unique_fixed.
Qed.

Lemma makeTagsUnique_distinct_witness :
  adjacent_distinct (same_key (Some "="%char))
    (getTags (makeTagsUnique
                (setTags ["w=1"; "w=2"; "h=1"]
                   (setPropertySeparator "=" QTagEdit_new))))
  /\ getTags (makeTagsUnique
                (setTags ["w=1"; "h=1"; "w=2"]
                   (setPropertySeparator "=" QTagEdit_new)))
     = ["w=1"; "h=1"; "w=2"].
Proof.
  split.
  - apply (proj1 (makeTagsUnique_distinct
                    (setTags ["w=1"; "w=2"; "h=1"]
                       (setPropertySeparator "=" QTagEdit_new)) eq_refl)).
  - apply (proj2 (proj2 (makeTagsUnique_distinct
                           (setTags ["w=1"; "h=1"; "w=2"]
                              (setPropertySeparator "=" QTagEdit_new))
                           eq_refl))).
    simpl. repeat split; reflexivity.
Defined.

Lemma buffer_invariant_preserved_witness :
  buffer_invariant
    (text (run (OpAddProperty {| name := "box"; values := ["1"] |})
             (setTags ["wow"] (setPropertySeparator "=" QTagEdit_new))))
  = true.
Proof.
  apply (buffer_invariant_preserved
           (setTags ["wow"] (setPropertySeparator "=" QTagEdit_new))
           (OpAddProperty {| name := "box"; values := ["1"] |})).
  - reflexivity.
  - split; [split; [discriminate | reflexivity] |].
    constructor; [split; [discriminate | reflexivity] | constructor].
  - simpl. discriminate.
Defined.

(** ** Completion *)

Lemma back_is_blank (s : string) :
  Ascii.eqb (QString_back s) " " = ends_with is_blank s.
Proof.
  induction s as [| c s IH]; [reflexivity |].
  destruct s as [| d s]; [reflexivity | exact IH].
Qed.

Lemma starts_with_blank_app (a b : string) :
  starts_with is_blank (a ++ String " " b) = false -> a <> "".
Proof. intros H ->. discriminate. Qed.

(** X11. With a completer installed, [keyPressEvent] always asks for
    completions: the test that the tag list is not empty never fails.  The
    prefix is empty exactly when the buffer is empty or ends with a space;
    otherwise it is the last tag, which is what the buffer ends with after
    its last space. *)
Theorem keyPressEvent_prefix_spec (w : QTagEdit) :
  exists prefix : string,
    keyPressEvent_prefix w = Some prefix
    /\ QString.contains " " prefix = false
    /\ (prefix = "" <->
        text w = "" \/ ends_with is_blank (text w) = true)
    /\ exists base : string,
         text w = base ++ prefix
         /\ (base = "" \/ ends_with is_blank base = true).
Proof.
  unfold keyPressEvent_prefix. rewrite back_is_blank.
  destruct (text w) as [| c s] eqn:Htext.
  - exists "". simpl. repeat split; auto. exists "". auto.
  - cbn [QString.isEmpty orb].
    destruct (ends_with is_blank (String c s)) eqn:Hend.
    + exists "". repeat split; auto.
      exists (String c s). rewrite string_app_empty_r. auto.
    + destruct (QString.contains " " (String c s)) eqn:Hsp.
      * destruct (last_occurrence " " _ Hsp) as (a & b & Hab & Hb).
        pose proof Hend as Hlast.
        rewrite Hab, ends_with_after_blank in Hlast.
        destruct b as [| d b]; [discriminate |].
        rewrite (getTags_of_text w _ Htext), Hab, split_skip_app.
        rewrite (split_skip_absent " " (String d b))
          by (discriminate || exact Hb).
        destruct (QString.split " " QString.SkipEmptyParts a
                  ++ [String d b])%list eqn:Hl;
          [now destruct (QString.split " " QString.SkipEmptyParts a) |].
        rewrite <- Hl, last_last.
        exists (String d b). split; [reflexivity |].
        split; [exact Hb |].
        split; [split; [discriminate | rewrite <- Hab; intros [H | H];
                                         congruence] |].
        exists (a ++ " "). split.
        -- rewrite string_app_assoc. reflexivity.
        -- right. rewrite ends_with_app. reflexivity.
      * rewrite (getTags_of_text w _ Htext).
        rewrite (split_skip_absent " " (String c s))
          by (discriminate || exact Hsp).
        exists (String c s). split; [reflexivity |].
        split; [exact Hsp |].
        split; [split; [discriminate | intros [H | H]; congruence] |].
        exists "". auto.
Qed.

(** X12. Accepting a completion replaces what was typed of the last tag: on
    a buffer that does not start with a space, the text before the prefix
    that [keyPressEvent] hands to the completer is kept and the prefix is
    replaced by the completion; after a trailing space or on an empty buffer
    the completion is appended. *)
Theorem completionActivated_replaces_prefix (w : QTagEdit)
  (prefix completion : string) :
  starts_with is_blank (text w) = false ->
  keyPressEvent_prefix w = Some prefix ->
  exists base : string,
    text w = base ++ prefix
    /\ text (completionActivated completion w) = base ++ completion.
Proof.
  intros Hstart. unfold keyPressEvent_prefix, completionActivated.
  rewrite back_is_blank.
  destruct (QString.contains " " (text w)) eqn:Hsp.
  - destruct (last_occurrence " " (text w) Hsp) as (a & b & Htext & Hb).
    pose proof (removeLastTag_at_last_space w a b Htext Hb) as Hrem.
    assert (a <> "") as Ha
        by (apply (starts_with_blank_app a b); now rewrite <- Htext).
    assert (text (addTag completion (removeLastTag w))
            = (a ++ " ") ++ completion) as Hres.
    { unfold addTag. rewrite Hrem.
      rewrite (proj2 (isEmpty_false a) Ha). simpl text.
      now rewrite string_app_assoc. }
    rewrite Htext at 1 2. rewrite ends_with_after_blank.
    replace (QString.isEmpty (a ++ String " " b)) with false
      by (now destruct a).
    cbn [orb]. destruct b as [| d b]; cbn [QString.isEmpty].
    + intros [= <-]. exists (a ++ " "). split; [| exact Hres].
      rewrite Htext. now rewrite string_app_empty_r.
    + unfold is_blank. rewrite (absent_ends_with " " (String d b) Hb).
      rewrite (getTags_of_text w _ Htext), split_skip_app.
      rewrite (split_skip_absent " " (String d b))
        by (discriminate || exact Hb).
      destruct (QString.split " " QString.SkipEmptyParts a
                ++ [String d b])%list eqn:Hl;
        [now destruct (QString.split " " QString.SkipEmptyParts a) |].
      rewrite <- Hl, last_last. intros [= <-].
      exists (a ++ " "). split; [| exact Hres].
      rewrite Htext. now rewrite string_app_assoc.
  - pose proof (removeLastTag_without_space w Hsp) as Hrem.
    assert (text (addTag completion (removeLastTag w)) = completion) as Hres
        by (unfold addTag; now rewrite Hrem).
    unfold is_blank. rewrite (absent_ends_with " " (text w) Hsp).
    rewrite orb_false_r.
    destruct (text w) as [| c s] eqn:Htext; cbn [QString.isEmpty].
    + intros [= <-]. exists "". split; [reflexivity | exact Hres].
    + rewrite (getTags_of_text w _ Htext).
      rewrite (split_skip_absent " " (String c s))
        by (discriminate || exact Hsp).
      intros [= <-]. exists "". split; [reflexivity | exact Hres].
Qed.

Lemma completionActivated_replaces_prefix_witness :
  exists base : string,
    "wow su" = base ++ "su"
    /\ text (completionActivated "such" (setText "wow su" QTagEdit_new))
       = base ++ "such".
Proof.
  apply (completionActivated_replaces_prefix
           (setText "wow su" QTagEdit_new) "su" "such");
    reflexivity.
Defined.

(** ** Painting *)

Section SeparatorFacts.

Variable sep : ascii.

Lemma split_at_separator (tag values : string) :
  after_first sep tag = Some values ->
  tag = before_first sep tag ++ String sep values
  /\ QString.indexOf sep tag = QString.size (before_first sep tag).
Proof.
  unfold QString.size. revert values.
  induction tag as [| c tag IH]; intros values; simpl; [discriminate |].
  destruct (Ascii.eqb c sep) eqn:E.
  - intros [= ->]. apply Ascii.eqb_eq in E; subst c. split; reflexivity.
  - intros Hafter. destruct (IH values Hafter) as [Htag Hindex].
    split; [simpl; now rewrite <- Htag |].
    rewrite Hindex. simpl String.length.
    destruct (0 <=? Z.of_nat (String.length (before_first sep tag))) eqn:Hle;
      [lia | apply Z.leb_gt in Hle; lia].
Qed.

Lemma no_separator (tag : string) :
  after_first sep tag = None ->
  before_first sep tag = tag /\ QString.indexOf sep tag = -1.
Proof.
  induction tag as [| c tag IH]; simpl; [split; reflexivity |].
  destruct (Ascii.eqb c sep); [discriminate |].
  intros Hnone. destruct (IH Hnone) as [Htag Hindex].
  rewrite Htag, Hindex. split; reflexivity.
Qed.

Lemma sliced_app (a b : string) : QString.sliced (String.length a) (a ++ b) = b.
Proof. induction a as [| c a IH]; simpl; [now destruct b | exact IH]. Qed.

Lemma indexOf_found (tag values : string) :
  after_first sep tag = Some values ->
  (0 <=? QString.indexOf sep tag) = true
  /\ QString.truncate (QString.indexOf sep tag) tag = before_first sep tag
  /\ QString.sliced (Z.to_nat (QString.indexOf sep tag)) tag
     = String sep values.
Proof.
  intros Hafter. destruct (split_at_separator tag values Hafter) as [Htag Hi].
  rewrite Hi. split; [apply Z.leb_le; unfold QString.size; lia |].
  split.
  - rewrite Htag at 2. apply truncate_app.
  - unfold QString.size. rewrite Nat2Z.id. rewrite Htag at 2.
    apply sliced_app.
Qed.

End SeparatorFacts.

Section PaintFacts.

Variable w : QTagEdit.
Variable fm : QFontMetrics.

Lemma text_rect_underline (text_y : Z) (str : string) (x : Z) :
  QRect.bottomLeft (text_rect fm text_y str x kTagMargins)
  = mkPoint x (text_y + 2)
  /\ QRect.bottomRight (text_rect fm text_y str x kTagMargins)
     = mkPoint (x + horizontalAdvance fm str - 1) (text_y + 2).
Proof.
  unfold text_rect, QRect.bottomLeft, QRect.bottomRight, QRect.marginsAdded,
    QRect.moveLeft, QRect.moveBottom, QRect.make. simpl.
  unfold kLeftMargin, kRightMargin, kBottomMargin.
  split; f_equal; lia.
Qed.

(** One turn of the loop of [renderTagBackgrounds]. *)
Lemma renderTagBackgrounds_loop_cons (text_y : Z) (line_only : bool)
  (tag : string) (rest : list string) (rect : QRect.t) :
  renderTagBackgrounds_loop w fm text_y line_only (tag :: rest) rect
  = ((if negb line_only && isEnabled w
      then map (fun fill => FillPath (fst fill) (snd fill))
             (tag_shadings w fm text_y (QRect.left rect) tag)
      else [])
     ++ [SetPen (line_pen_of w tag);
         DrawLine (mkPoint (QRect.left rect) (text_y + 2))
           (mkPoint (QRect.left rect + horizontalAdvance fm tag - 1)
              (text_y + 2))]
     ++ renderTagBackgrounds_loop w fm text_y line_only rest
          (QRect.moveLeft
             (QRect.left rect + horizontalAdvance fm (tag ++ " ")) rect))%list.
Proof.
  cbn [renderTagBackgrounds_loop].
  destruct (text_rect_underline text_y tag (QRect.left rect)) as [-> ->].
  unfold tag_shadings, line_pen_of, style_of, tag_key.
  destruct (separator w) as [sep |] eqn:Hsep.
  - destruct (after_first sep tag) as [values |] eqn:Hafter.
    + destruct (indexOf_found sep tag values Hafter) as (-> & -> & ->).
      cbn [QString.isEmpty negb]. rewrite <- app_assoc.
      destruct (negb line_only && isEnabled w); reflexivity.
    + destruct (no_separator sep tag Hafter) as [-> ->].
      change (0 <=? -1) with false. cbv iota.
      cbn [QString.isEmpty negb]. rewrite <- app_assoc.
      destruct (negb line_only && isEnabled w); reflexivity.
  - cbn [QString.isEmpty negb]. rewrite <- app_assoc.
    destruct (negb line_only && isEnabled w); reflexivity.
Qed.

End PaintFacts.

Section RowFacts.

Variable w : QTagEdit.
Variable fm : QFontMetrics.

Lemma filled_fills (fills : list (QRect.t * QColor)) :
  filled (map (fun fill => FillPath (fst fill) (snd fill)) fills) = fills.
Proof.
  induction fills as [| [r c] fills IH]; [reflexivity |].
  simpl. now rewrite IH.
Qed.

Lemma lines_of_fills (fills : list (QRect.t * QColor)) :
  drawn_lines (map (fun fill => FillPath (fst fill) (snd fill)) fills) = []
  /\ set_pens (map (fun fill => FillPath (fst fill) (snd fill)) fills) = [].
Proof. induction fills as [| f fills [IH1 IH2]]; split; auto. Qed.

Lemma drawn_lines_loop (text_y : Z) (line_only : bool) (tags : list string)
  (rect : QRect.t) :
  drawn_lines (renderTagBackgrounds_loop w fm text_y line_only tags rect)
  = underlines fm (text_y + 2) (QRect.left rect) tags.
Proof.
  revert rect.
  induction tags as [| tag tags IH]; intros rect; [reflexivity |].
  rewrite renderTagBackgrounds_loop_cons. unfold drawn_lines in *.
  rewrite !flat_map_app, IH.
  fold (drawn_lines
          (if negb line_only && isEnabled w
           then map (fun fill => FillPath (fst fill) (snd fill))
                  (tag_shadings w fm text_y (QRect.left rect) tag)
           else [])).
  replace (drawn_lines _) with (@nil (QPoint * QPoint))
    by (destruct (negb line_only && isEnabled w);
        [symmetry; apply lines_of_fills | reflexivity]).
  reflexivity.
Qed.

Lemma set_pens_loop (text_y : Z) (line_only : bool) (tags : list string)
  (rect : QRect.t) :
  set_pens (renderTagBackgrounds_loop w fm text_y line_only tags rect)
  = map (line_pen_of w) tags.
Proof.
  revert rect.
  induction tags as [| tag tags IH]; intros rect; [reflexivity |].
  rewrite renderTagBackgrounds_loop_cons. unfold set_pens in *.
  rewrite !flat_map_app, IH.
  fold (set_pens
          (if negb line_only && isEnabled w
           then map (fun fill => FillPath (fst fill) (snd fill))
                  (tag_shadings w fm text_y (QRect.left rect) tag)
           else [])).
  replace (set_pens _) with (@nil QPen)
    by (destruct (negb line_only && isEnabled w);
        [symmetry; apply lines_of_fills | reflexivity]).
  reflexivity.
Qed.

Lemma filled_loop (text_y : Z) (line_only : bool) (tags : list string)
  (rect : QRect.t) :
  filled (renderTagBackgrounds_loop w fm text_y line_only tags rect)
  = if negb line_only && isEnabled w
    then shadings w fm text_y (QRect.left rect) tags
    else [].
Proof.
  revert rect.
  induction tags as [| tag tags IH]; intros rect;
    [now destruct (negb line_only && isEnabled w) |].
  rewrite renderTagBackgrounds_loop_cons. unfold filled in *.
  rewrite !flat_map_app, IH.
  fold (filled
          (if negb line_only && isEnabled w
           then map (fun fill => FillPath (fst fill) (snd fill))
                  (tag_shadings w fm text_y (QRect.left rect) tag)
           else [])).
  destruct (negb line_only && isEnabled w); [| reflexivity].
  rewrite filled_fills. reflexivity.
Qed.

Lemma texts_of_backgrounds (text_y : Z) (line_only : bool)
  (tags : list string) (rect : QRect.t) :
  drawn_texts (renderTagBackgrounds_loop w fm text_y line_only tags rect) = []
  /\ text_offsets (renderTagBackgrounds_loop w fm text_y line_only tags rect)
     = [].
Proof.
  revert rect.
  induction tags as [| tag tags IH]; intros rect; [split; reflexivity |].
  rewrite renderTagBackgrounds_loop_cons.
  unfold drawn_texts, text_offsets in *. rewrite !flat_map_app.
  destruct (IH (QRect.moveLeft
                  (QRect.left rect + horizontalAdvance fm (tag ++ " ")) rect))
    as [-> ->].
  destruct (negb line_only && isEnabled w); [| split; reflexivity].
  generalize (tag_shadings w fm text_y (QRect.left rect) tag) as fills.
  induction fills as [| f fills [IH1 IH2]]; split; auto.
Qed.

Lemma renderTags_loop_rows (tags : list string) (rect : QRect.t) :
  map snd (drawn_texts (renderTags_loop w fm tags rect)) = tags
  /\ set_pens (renderTags_loop w fm tags rect) = map (text_pen_of w) tags
  /\ filled (renderTags_loop w fm tags rect) = []
  /\ drawn_lines (renderTags_loop w fm tags rect) = []
  /\ line_offsets (renderTags_loop w fm tags rect) = [].
Proof.
  revert rect.
  induction tags as [| tag tags IH]; intros rect; [repeat split |].
  destruct (IH (QRect.moveLeft
                  (QRect.left rect + horizontalAdvance fm (tag ++ " ")) rect))
    as (Htexts & Hpens & Hfills & Hlines & Hoffsets).
  cbn [renderTags_loop].
  split; [| split; [| split; [| split]]].
  - cbn [drawn_texts flat_map app map snd].
    fold (drawn_texts
            (renderTags_loop w fm tags
               (QRect.moveLeft
                  (QRect.left rect + horizontalAdvance fm (tag ++ " ")) rect))).
    now rewrite Htexts.
  - cbn [set_pens flat_map app map].
    fold (set_pens
            (renderTags_loop w fm tags
               (QRect.moveLeft
                  (QRect.left rect + horizontalAdvance fm (tag ++ " ")) rect))).
    rewrite Hpens. f_equal. unfold text_pen_of.
    destruct (Filter w tag), (isEnabled w); reflexivity.
  - exact Hfills.
  - exact Hlines.
  - exact Hoffsets.
Qed.

Lemma painted_map (cmds : list PaintCommand) :
  painted (map Painted cmds) = cmds.
Proof. induction cmds as [| c cmds IH]; simpl; [reflexivity | now rewrite IH]. Qed.

End RowFacts.

(** X13. [renderTagBackgrounds] draws one underline per tag, in order, all at
    the same height (two pixels below the text line), each starting at the
    offset of its tag and spanning the measured width of the whole tag, name
    and values alike; focus, the enabled flag, the filter and the separator
    have no influence on where the underlines are. *)
Theorem renderTagBackgrounds_underlines (w : QTagEdit) (fm : QFontMetrics)
  (rect : QRect.t) (line_only : bool) :
  drawn_lines (renderTagBackgrounds w fm rect line_only)
  = underlines fm (Z.quot (QRect.height rect + fontHeight fm) 2 + 2)
      (QRect.left rect) (getTags w).
Proof. apply drawn_lines_loop. Qed.

(** X14. [renderTagBackgrounds] fills nothing in line-only mode or when the
    widget is disabled.  Otherwise it fills, per tag, the rectangle of the
    whole tag in the shade colour and, when the tag holds the separator, the
    rectangle of the separator and the values, placed after the measured
    width of the name; the name is the one [getProperties] reports, and the
    style is the primary one exactly when the filter accepts that name. *)
Theorem renderTagBackgrounds_fills (w : QTagEdit) (fm : QFontMetrics)
  (rect : QRect.t) (line_only : bool) :
  filled (renderTagBackgrounds w fm rect line_only)
  = if negb line_only && isEnabled w
    then shadings w fm (Z.quot (QRect.height rect + fontHeight fm) 2)
           (QRect.left rect) (getTags w)
    else [].
Proof. apply filled_loop. Qed.

(** X15. The pen of each underline is two pixels wide; its colour is the
    light gray when the widget is disabled and otherwise the line colour of
    the tag's style, chosen by the filter on the name part of the tag.
    Without a filter every underline of an enabled widget has the primary
    line colour. *)
Theorem renderTagBackgrounds_pens (w : QTagEdit) (fm : QFontMetrics)
  (rect : QRect.t) (line_only : bool) :
  set_pens (renderTagBackgrounds w fm rect line_only)
  = map (line_pen_of w) (getTags w)
  /\ (tag_filter w = None -> isEnabled w = true ->
      set_pens (renderTagBackgrounds w fm rect line_only)
      = map (fun _ => mkPen (line_color (primary w)) 2) (getTags w)).
Proof.
  assert (set_pens (renderTagBackgrounds w fm rect line_only)
          = map (line_pen_of w) (getTags w)) as Hpens
      by apply set_pens_loop.
  split; [exact Hpens |].
  intros Hfilter Henabled. rewrite Hpens. apply map_ext. intros tag.
  unfold line_pen_of, style_of, Filter. now rewrite Hfilter, Henabled.
Qed.

Lemma renderTagBackgrounds_pens_witness :
  set_pens
    (renderTagBackgrounds (setTags ["wow"; "such"] QTagEdit_new)
       rounding_metrics (QRect.make 3 0 200 20) false)
  = [mkPen kLineColor 2; mkPen kLineColor 2].
Proof.
  apply (proj2 (renderTagBackgrounds_pens
                  (setTags ["wow"; "such"] QTagEdit_new) rounding_metrics
                  (QRect.make 3 0 200 20) false) eq_refl eq_refl).
Defined.

(** X16. [renderTags] writes every tag once, in order, and nothing else (no
    fill, no line).  The pen of a tag is gray when the widget is disabled;
    otherwise it is the contrast pen for the property colour of the primary
    style when the filter accepts the whole tag, separator and values
    included, and of the secondary style when it does not. *)
Theorem renderTags_texts (w : QTagEdit) (fm : QFontMetrics) (rect : QRect.t) :
  map snd (drawn_texts (renderTags w fm rect)) = getTags w
  /\ set_pens (renderTags w fm rect) = map (text_pen_of w) (getTags w)
  /\ filled (renderTags w fm rect) = []
  /\ drawn_lines (renderTags w fm rect) = [].
Proof.
  destruct (renderTags_loop_rows w fm (getTags w) rect)
    as (Htexts & Hpens & Hfills & Hlines & _).
  repeat split; assumption.
Qed.

(** X17. A paint event of the focused widget lets the host paint first and
    then only draws underlines: it fills nothing and writes no text, so that
    the host's text and caret stay visible. *)
Theorem paintEvent_focused (w : QTagEdit) (fm : QFontMetrics)
  (contents : QRect.t) :
  hd_error (paintEvent w fm contents true) = Some HostPaintEvent
  /\ filled (painted (paintEvent w fm contents true)) = []
  /\ drawn_texts (painted (paintEvent w fm contents true)) = []
  /\ List.length (drawn_lines (painted (paintEvent w fm contents true)))
     = List.length (getTags w).
Proof.
  unfold paintEvent. cbn [hd_error painted flat_map app].
  fold (painted (map Painted
                   (renderTagBackgrounds w fm
                      (QRect_translate kLineEditLeftMargin 0 contents) true))).
  rewrite painted_map.
  split; [reflexivity |].
  split; [unfold renderTagBackgrounds; now rewrite filled_loop |].
  split; [apply texts_of_backgrounds |].
  unfold renderTagBackgrounds. rewrite drawn_lines_loop.
  generalize (QRect.left (QRect_translate kLineEditLeftMargin 0 contents)).
  induction (getTags w) as [| tag tags IH]; intros x; simpl;
    [reflexivity | now rewrite IH].
Qed.

(** X18. A paint event of the unfocused widget asks the host style for the
    panel and the frame, then draws the backgrounds and the texts in lock
    step: the text of each tag starts at the offset where its underline
    starts, the first one three pixels right of the contents rectangle of
    the host, and the texts written are the tags in order. *)
Theorem paintEvent_unfocused (w : QTagEdit) (fm : QFontMetrics)
  (contents : QRect.t) :
  firstn 2 (paintEvent w fm contents false)
  = [DrawPrimitive PE_PanelLineEdit; DrawPrimitive PE_FrameLineEdit]
  /\ text_offsets (painted (paintEvent w fm contents false))
     = line_offsets (painted (paintEvent w fm contents false))
  /\ text_offsets (painted (paintEvent w fm contents false))
     = offsets_from fm (QRect.left contents + 3) (getTags w)
  /\ map snd (drawn_texts (painted (paintEvent w fm contents false)))
     = getTags w.
Proof.
  unfold paintEvent. cbn [firstn painted flat_map app].
  set (content_rect := QRect_translate kLineEditLeftMargin 0 contents).
  fold (painted (map Painted
                   (renderTagBackgrounds w fm content_rect false
                    ++ renderTags w fm content_rect)%list)).
  rewrite painted_map.
  destruct (renderTags_loop_rows w fm (getTags w) content_rect)
    as (Htexts & _ & _ & _ & Hnolines).
  destruct (texts_of_backgrounds w fm
              (Z.quot (QRect.height content_rect + fontHeight fm) 2) false
              (getTags w) content_rect) as [Hnotexts Hnooffsets].
  assert (text_offsets
            (renderTagBackgrounds w fm content_rect false
             ++ renderTags w fm content_rect)
          = offsets_from fm (QRect.left contents + 3) (getTags w)) as Htext.
  { unfold text_offsets at 1. rewrite flat_map_app.
    fold (text_offsets (renderTagBackgrounds w fm content_rect false)).
    fold (text_offsets (renderTags w fm content_rect)).
    unfold renderTagBackgrounds at 1. rewrite Hnooffsets.
    now rewrite text_offsets_renderTags. }
  split; [reflexivity |].
  split; [| split; [exact Htext |]].
  - rewrite Htext, line_offsets_app.
    rewrite line_offsets_renderTagBackgrounds.
    unfold renderTags. rewrite Hnolines. now rewrite app_nil_r.
  - unfold drawn_texts at 1. rewrite flat_map_app.
    fold (drawn_texts (renderTagBackgrounds w fm content_rect false)).
    fold (drawn_texts (renderTags w fm content_rect)).
    unfold renderTagBackgrounds at 1. rewrite Hnotexts. exact Htexts.
Qed.

Section SecondaryFacts.

Variable w : QTagEdit.
Variables line shade property : QColor.
Variable fm : QFontMetrics.
Hypothesis no_filter : tag_filter w = None.

Lemma backgrounds_without_filter (text_y : Z) (line_only : bool)
  (tags : list string) (rect : QRect.t) :
  renderTagBackgrounds_loop (setSecondaryColors line shade property w) fm
    text_y line_only tags rect
  = renderTagBackgrounds_loop w fm text_y line_only tags rect.
Proof.
  revert rect.
  induction tags as [| tag tags IH]; intros rect; [reflexivity |].
  rewrite !renderTagBackgrounds_loop_cons, IH.
  unfold tag_shadings, line_pen_of, style_of, Filter.
  cbn [setSecondaryColors separator tag_filter isEnabled primary].
  rewrite no_filter. reflexivity.
Qed.

Lemma texts_without_filter (tags : list string) (rect : QRect.t) :
  renderTags_loop (setSecondaryColors line shade property w) fm tags rect
  = renderTags_loop w fm tags rect.
Proof.
  revert rect.
  induction tags as [| tag tags IH]; intros rect; [reflexivity |].
  cbn [renderTags_loop]. rewrite IH. unfold Filter.
  cbn [setSecondaryColors tag_filter isEnabled primary].
  rewrite no_filter. reflexivity.
Qed.

End SecondaryFacts.

(** X19. Without a tag filter the secondary colours are never used: a paint
    event draws the same, focused or not, whatever [setSecondaryColors] has
    set. *)
Theorem paintEvent_ignores_secondary (w : QTagEdit)
  (line shade property : QColor) (fm : QFontMetrics) (contents : QRect.t)
  (hasFocus : bool) :
  tag_filter w = None ->
  paintEvent (setSecondaryColors line shade property w) fm contents hasFocus
  = paintEvent w fm contents hasFocus.
Proof.
  intros Hfilter. unfold paintEvent, renderTagBackgrounds, renderTags.
  change (getTags (setSecondaryColors line shade property w))
    with (getTags w).
  rewrite !(backgrounds_without_filter w line shade property fm Hfilter).
  rewrite (texts_without_filter w line shade property fm Hfilter).
  reflexivity.
Qed.

Lemma paintEvent_ignores_secondary_witness :
  paintEvent
    (setSecondaryColors gray gray gray (setTags ["wow"; "x=1"] QTagEdit_new))
    rounding_metrics (QRect.make 0 0 200 20) false
  = paintEvent (setTags ["wow"; "x=1"] QTagEdit_new) rounding_metrics
      (QRect.make 0 0 200 20) false.
Proof.
  apply (paintEvent_ignores_secondary
           (setTags ["wow"; "x=1"] QTagEdit_new) gray gray gray
           rounding_metrics (QRect.make 0 0 200 20) false eq_refl).
Defined.

(** ** Opaque colours *)

Lemma scale_a_opaque_table :
  map (fun n => scale_a (mkColor 0 0 0 255) (Z.of_nat n)) (seq 0 256)
  = map (fun n => to_double (Z.of_nat n)) (seq 0 256).
Proof. vm_compute. reflexivity. Qed.

Lemma scale_a_opaque (c : QColor) (value : Z) :
  alpha c = 255 -> channel value -> scale_a c value = to_double value.
Proof.
  intros Ha Hv. unfold channel in Hv.
  rewrite scale_a_alpha, Ha.
  replace value with (Z.of_nat (Z.to_nat value)) by lia.
  assert (Z.to_nat value < 256)%nat as Hn by lia.
  pose proof (f_equal (fun l => nth (Z.to_nat value) l 0%float)
                scale_a_opaque_table) as H.
  cbv beta in H.
  rewrite (nth_indep _ 0%float (scale_a (mkColor 0 0 0 255) (Z.of_nat 0)))
    in H by (rewrite length_map, length_seq; exact Hn).
  rewrite (map_nth (fun n => scale_a (mkColor 0 0 0 255) (Z.of_nat n))) in H.
  rewrite (nth_indep (map (fun n => to_double (Z.of_nat n)) (seq 0 256))
             0%float (to_double (Z.of_nat 0))) in H
    by (rewrite length_map, length_seq; exact Hn).
  rewrite (map_nth (fun n => to_double (Z.of_nat n))) in H.
  rewrite seq_nth in H by exact Hn. exact H.
Qed.

Lemma grey_by_level :
  forallb (fun v => Bool.eqb (selects_dark (mkColor v v v 255)) (150 <? v))
    (int_range 0 256) = true.
Proof. vm_compute. reflexivity. Qed.

(** X20. For an opaque colour the blend leaves every channel as it is, with
    no rounding, so that the weighted value is the luma of the channels
    themselves; an opaque grey selects the black pen exactly when its level
    is above 150, the level 150 itself selecting the off-white pen. *)
Theorem getPenForColor_opaque :
  (forall c : QColor,
      rgba c -> alpha c = 255 ->
      weighted_color c
      = (to_double (red c) * 0.299 + to_double (green c) * 0.587
         + to_double (blue c) * 0.114)%float)
  /\ (forall v : Z,
         channel v ->
         getPenForColor (mkColor v v v 255)
         = QPen_of_color (if 150 <? v then kDarkColor else kBrightColor)).
Proof.
  split.
  - intros c (Hr & Hg & Hb & _) Ha.
    unfold weighted_color, kRgbBrightnessWeights.
    now rewrite !(scale_a_opaque c _ Ha) by assumption.
  - intros v Hv. unfold channel in Hv.
    pose proof (forallb_int_range 0 256 _ v grey_by_level) as H.
    cbv beta in H. unfold getPenForColor.
    fold (selects_dark (mkColor v v v 255)).
    apply Bool.eqb_prop in H; [| simpl; lia].
    rewrite H. now destruct (150 <? v).
Qed.

Lemma getPenForColor_opaque_witness :
  weighted_color kLineColor
  = (to_double 37 * 0.299 + to_double 150 * 0.587 + to_double 190 * 0.114)%float
  /\ getPenForColor (mkColor 150 150 150 255) = QPen_of_color kBrightColor
  /\ getPenForColor (mkColor 151 151 151 255) = QPen_of_color kDarkColor.
Proof.
  split; [| split].
  - apply (proj1 getPenForColor_opaque kLineColor);
      [unfold rgba, channel; simpl; lia | reflexivity].
  - apply (proj2 getPenForColor_opaque 150). unfold channel. lia.
  - apply (proj2 getPenForColor_opaque 151). unfold channel. lia.
Defined.

(** ** The example *)

Lemma fold_names (properties : list Property) (start : string) :
  fold_left (fun text prop => text ++ (name prop ++ ", ")) properties start
  = start ++ concat_all (map (fun prop => name prop ++ ", ") properties).
Proof.
  revert start.
  induction properties as [| p ps IH]; intros start; simpl.
  - now rewrite string_app_empty_r.
  - rewrite IH, string_app_assoc. reflexivity.
Qed.

Lemma names_joined (p : Property) (ps : list Property) :
  concat_all (map (fun prop => name prop ++ ", ") (p :: ps))
  = QStringList.join ", " (map name (p :: ps)) ++ ", ".
Proof.
  revert p.
  induction ps as [| q ps IH]; intros p.
  - simpl. now rewrite string_app_empty_r.
  - change (concat_all (map (fun prop => name prop ++ ", ") (p :: q :: ps)))
      with ((name p ++ ", ")
            ++ concat_all (map (fun prop => name prop ++ ", ") (q :: ps))).
    rewrite IH.
    change (QStringList.join ", " (map name (p :: q :: ps)))
      with (name p ++ ", " ++ QStringList.join ", " (map name (q :: ps))).
    now rewrite !string_app_assoc.
Qed.

Lemma chop_appended (s : string) : QString_chop 2 (s ++ ", ") = s.
Proof.
  unfold QString_chop, QString.size. simpl (2 <=? 0).
  rewrite string_length_app. simpl (String.length ", ").
  replace (Z.to_nat (Z.of_nat (String.length s + 2) - 2))
    with (String.length s) by lia.
  apply left_app.
Qed.

(** X21. The slot of the example that mirrors the properties shows their
    names joined by a comma and a space, with nothing after the last name:
    chopping two code units removes exactly the separator appended after the
    last name, and an empty property list (as without a separator) gives the
    empty string. *)
Theorem mirrored_names_joined (w : QTagEdit) :
  mirrored_names w = QStringList.join ", " (map name (getProperties w))
  /\ (separator w = None -> mirrored_names w = "").
Proof.
  assert (mirrored_names w
          = QStringList.join ", " (map name (getProperties w))) as Hjoin.
  { unfold mirrored_names. rewrite fold_names.
    destruct (getProperties w) as [| p ps]; [reflexivity |].
    rewrite names_joined. apply chop_appended. }
  split; [exact Hjoin |].
  intros Hsep. rewrite Hjoin.
  now rewrite (getProperties_without_separator w Hsep).
Qed.

Lemma mirrored_names_joined_witness :
  mirrored_names (setText "width=10 box" QTagEdit_new) = "".
Proof.
  apply (proj2 (mirrored_names_joined (setText "width=10 box" QTagEdit_new))).
  reflexivity.
Defined.
